(** * EnhancedTTSClient: a shallow embedding of the speech queue coordinator

    The JavaScript class [EnhancedTTSClient] (enhanced-tts-client.js) is
    embedded as pure functions over an explicit world: the fields of the
    client object, the state of [window.speechSynthesis] that the client
    can influence, and the part of the JavaScript run time the class relies
    on (timers, promises and their continuations, the console).

    Strings are [string] (sequences of 8-bit characters), the numbers of the
    voice settings are rationals (they are only copied, never computed
    with), times are integers in milliseconds. *)

From Stdlib Require Import String Ascii List ZArith QArith Bool Arith Lia.
Import ListNotations.

Local Open Scope string_scope.
Local Open Scope list_scope.

(** ** JavaScript string primitives used by the client *)

Module JsString.

(** [s.startsWith(p)] *)
Definition startsWith (s p : string) : bool := String.prefix p s.

(** [s.includes(sub)] *)
Fixpoint includes (s sub : string) : bool :=
  if String.prefix sub s then true
  else match s with
       | EmptyString => false
       | String _ s' => includes s' sub
       end.

Definition lowerChar (c : ascii) : ascii :=
  let n := nat_of_ascii c in
  if (65 <=? n)%nat && (n <=? 90)%nat then ascii_of_nat (n + 32) else c.

(** [s.toLowerCase()], on the ASCII letters. *)
Fixpoint toLowerCase (s : string) : string :=
  match s with
  | EmptyString => EmptyString
  | String c s' => String (lowerChar c) (toLowerCase s')
  end.

(** [s.replace(/c/g, by)] for a pattern that is one literal character. *)
Fixpoint replaceAll (c : ascii) (by_ : string) (s : string) : string :=
  match s with
  | EmptyString => EmptyString
  | String d s' =>
      if Ascii.eqb d c then by_ ++ replaceAll c by_ s'
      else String d (replaceAll c by_ s')
  end.

End JsString.

(** ** Data *)

(** A [SpeechSynthesisVoice], with the four attributes the client reads. *)
Record Voice := mkVoice {
  name : string;
  lang : string;
  localService : bool;
  default : bool
}.

(** An entry of [this.emotionalContexts]. *)
Record EmotionalContext := mkContext {
  ctx_rate : Q;
  ctx_pitch : Q;
  ctx_volume : Q;
  tone : string
}.

Definition emotionalContexts : list (string * EmotionalContext) :=
  [ ("hello",     mkContext 1 (11 # 10) (95 # 100) "friendly");
    ("thank_you", mkContext (8 # 10) (9 # 10) (85 # 100) "grateful");
    ("sorry",     mkContext (7 # 10) (8 # 10) (8 # 10) "apologetic");
    ("help",      mkContext (9 # 10) 1 (95 # 100) "urgent");
    ("please",    mkContext (8 # 10) (9 # 10) (85 # 100) "polite");
    ("love",      mkContext (75 # 100) (95 # 100) (9 # 10) "warm");
    ("good",      mkContext (95 # 100) (105 # 100) (9 # 10) "positive");
    ("bad",       mkContext (85 # 100) (9 # 10) (85 # 100) "concerned") ].

(** [emotionalContexts] is an object literal, so a property read also finds
    what it inherits from [Object.prototype]: those values are truthy, and
    none of them has a [tone], [rate], [pitch] or [volume]. *)
Definition objectPrototypeKeys : list string :=
  [ "constructor"; "__proto__"; "hasOwnProperty"; "isPrototypeOf";
    "propertyIsEnumerable"; "toLocaleString"; "toString"; "valueOf";
    "__defineGetter__"; "__defineSetter__"; "__lookupGetter__";
    "__lookupSetter__" ].

Inductive ContextLookup :=
| Own (ctx : EmotionalContext)
| Inherited
| Missing.

Fixpoint assoc {A} (k : string) (l : list (string * A)) : option A :=
  match l with
  | [] => None
  | (k', a) :: l' => if String.eqb k' k then Some a else assoc k l'
  end.

(** [signType && this.emotionalContexts[signType]]: [None] is [null], and
    the empty string is falsy as well. *)
Definition contextOf (signType : option string) : ContextLookup :=
  match signType with
  | None => Missing
  | Some "" => Missing
  | Some k =>
      match assoc k emotionalContexts with
      | Some ctx => Own ctx
      | None => if existsb (String.eqb k) objectPrototypeKeys
                then Inherited else Missing
      end
  end.

(** ** TextEnhancer *)

(** The [switch (tone)] of [enhanceTextForSpeech]. *)
Definition toneTemplate (tone enhancedText : string) : string :=
  if tone =? "friendly" then "Hello there! " ++ enhancedText
  else if tone =? "grateful" then enhancedText ++ ". I really appreciate it."
  else if tone =? "apologetic" then
    "I'm " ++ enhancedText ++ ". Please forgive me."
  else if tone =? "urgent" then
    "I need " ++ enhancedText ++ ". Can you help me?"
  else if tone =? "polite" then enhancedText ++ ". Would that be possible?"
  else if tone =? "warm" then "I " ++ enhancedText ++ " you so much."
  else if tone =? "positive" then "That's " ++ enhancedText ++ "! Excellent!"
  else if tone =? "concerned" then
    "That's " ++ enhancedText ++ ". I'm worried about this."
  else enhancedText.

(** Step 1 of [enhanceTextForSpeech]. *)
Definition toneWrap (text : string) (signType : option string) : string :=
  match contextOf signType with
  | Own context => toneTemplate (tone context) text
  | Inherited => text
  | Missing => text
  end.

(** Step 2 of [enhanceTextForSpeech]: the three [replace] calls, in turn. *)
Definition addPauses (enhancedText : string) : string :=
  let enhancedText := JsString.replaceAll "." "... " enhancedText in
  let enhancedText := JsString.replaceAll "!" "! " enhancedText in
  let enhancedText := JsString.replaceAll "?" "? " enhancedText in
  enhancedText.

Definition enhanceTextForSpeech (text : string) (signType : option string)
  : string :=
  let enhancedText := text in
  let enhancedText := toneWrap enhancedText signType in
  addPauses enhancedText.

(** The punctuation expansion as the specification words it: one pass that
    maps every character to its expansion. *)
Definition expandChar (c : ascii) : string :=
  if Ascii.eqb c "." then "... "
  else if Ascii.eqb c "!" then "! "
  else if Ascii.eqb c "?" then "? "
  else String c EmptyString.

Fixpoint expandPunctuation (s : string) : string :=
  match s with
  | EmptyString => EmptyString
  | String c s' => expandChar c ++ expandPunctuation s'
  end.

(** ** The client object, the synthesis engine and the run time *)

(** [this.voiceSettings] *)
Record VoiceSettings := mkSettings {
  vs_rate : Q;
  vs_pitch : Q;
  vs_volume : Q;
  pauseBetween : Z
}.

(** The argument of [updateSettings]: an object with some of the keys. *)
Record SettingsPatch := mkPatch {
  new_rate : option Q;
  new_pitch : option Q;
  new_volume : option Q;
  new_pauseBetween : option Z
}.

Record SpeechItem := mkItem {
  text : string;
  signType : option string;
  priority : string;
  timestamp : Z
}.

(** A [SpeechSynthesisUtterance] as [createUtterance] and [processQueue]
    leave it.  [u_id] is the identity of the object; [u_label] is
    [speechItem.text], which its [onstart] handler closes over.  A setting
    read from an inherited entry is [undefined], here [None]. *)
Record Utterance := mkUtterance {
  u_id : nat;
  u_text : string;
  u_voice : option Voice;
  u_rate : option Q;
  u_pitch : option Q;
  u_volume : option Q;
  u_label : string
}.

(** The mutable fields of the [EnhancedTTSClient] instance. *)
Record Client := mkClient {
  voices : list Voice;
  currentVoice : option Voice;
  isInitialized : bool;
  speechQueue : list SpeechItem;
  isSpeaking : bool;
  voiceSettings : VoiceSettings
}.

(** [speechSynthesis.onvoiceschanged]: absent from the object, still
    [null], or the [loadVoices] closure of the [initialize] call whose
    promise is [p]. *)
Inductive VoicesChangedSlot :=
| SlotUndefined
| SlotNull
| SlotLoadVoices (p : nat).

(** [window.speechSynthesis].  [catalog] is what [getVoices()] returns at
    the moment; [active] holds the utterances handed to [speak] that were
    neither cancelled nor finished; [cancelled] those removed by [cancel()]
    whose final event has not been dispatched yet; [history] every utterance
    ever handed to [speak], oldest first. *)
Record Engine := mkEngine {
  catalog : list Voice;
  onvoiceschanged : VoicesChangedSlot;
  active : list Utterance;
  cancelled : list Utterance;
  paused : bool;
  history : list Utterance
}.

Inductive TimerTask :=
| TLoadVoices (p : nat)
| TProcessQueue.

Record Timer := mkTimer {
  due : Z;
  task : TimerTask
}.

(** A [speak] call suspended at [await this.initialize()]: the arguments
    its continuation closes over. *)
Record SpeakCall := mkSpeakCall {
  c_text : string;
  c_signType : option string;
  c_priority : string
}.

(** The JavaScript run time: the clock read by [Date.now()], the pending
    [setTimeout] callbacks, the promises made by [initialize] (numbered)
    and which of them are resolved, the suspended [speak] calls with the
    promise each one awaits, those ready to resume at the end of the
    running task, a counter for fresh utterance objects and the console. *)
Record Runtime := mkRuntime {
  now : Z;
  timers : list Timer;
  nextPromise : nat;
  resolved : list nat;
  awaiting : list (nat * SpeakCall);
  microtasks : list SpeakCall;
  nextUtterance : nat;
  console : list string
}.

Record World := mkWorld {
  client : Client;
  engine : Engine;
  runtime : Runtime
}.

(** Field updates. *)

Definition set_voices (x : list Voice) (c : Client) : Client :=
  mkClient x (currentVoice c) (isInitialized c) (speechQueue c)
           (isSpeaking c) (voiceSettings c).
Definition set_currentVoice (x : option Voice) (c : Client) : Client :=
  mkClient (voices c) x (isInitialized c) (speechQueue c)
           (isSpeaking c) (voiceSettings c).
Definition set_isInitialized (x : bool) (c : Client) : Client :=
  mkClient (voices c) (currentVoice c) x (speechQueue c)
           (isSpeaking c) (voiceSettings c).
Definition set_speechQueue (x : list SpeechItem) (c : Client) : Client :=
  mkClient (voices c) (currentVoice c) (isInitialized c) x
           (isSpeaking c) (voiceSettings c).
Definition set_isSpeaking (x : bool) (c : Client) : Client :=
  mkClient (voices c) (currentVoice c) (isInitialized c) (speechQueue c)
           x (voiceSettings c).
Definition set_voiceSettings (x : VoiceSettings) (c : Client) : Client :=
  mkClient (voices c) (currentVoice c) (isInitialized c) (speechQueue c)
           (isSpeaking c) x.

Definition set_catalog (x : list Voice) (e : Engine) : Engine :=
  mkEngine x (onvoiceschanged e) (active e) (cancelled e) (paused e)
           (history e).
Definition set_onvoiceschanged (x : VoicesChangedSlot) (e : Engine) : Engine :=
  mkEngine (catalog e) x (active e) (cancelled e) (paused e) (history e).
Definition set_active (x : list Utterance) (e : Engine) : Engine :=
  mkEngine (catalog e) (onvoiceschanged e) x (cancelled e) (paused e)
           (history e).
Definition set_cancelled (x : list Utterance) (e : Engine) : Engine :=
  mkEngine (catalog e) (onvoiceschanged e) (active e) x (paused e)
           (history e).
Definition set_paused (x : bool) (e : Engine) : Engine :=
  mkEngine (catalog e) (onvoiceschanged e) (active e) (cancelled e) x
           (history e).
Definition set_history (x : list Utterance) (e : Engine) : Engine :=
  mkEngine (catalog e) (onvoiceschanged e) (active e) (cancelled e)
           (paused e) x.

Definition set_now (x : Z) (r : Runtime) : Runtime :=
  mkRuntime x (timers r) (nextPromise r) (resolved r) (awaiting r)
            (microtasks r) (nextUtterance r) (console r).
Definition set_timers (x : list Timer) (r : Runtime) : Runtime :=
  mkRuntime (now r) x (nextPromise r) (resolved r) (awaiting r)
            (microtasks r) (nextUtterance r) (console r).
Definition set_nextPromise (x : nat) (r : Runtime) : Runtime :=
  mkRuntime (now r) (timers r) x (resolved r) (awaiting r)
            (microtasks r) (nextUtterance r) (console r).
Definition set_resolved (x : list nat) (r : Runtime) : Runtime :=
  mkRuntime (now r) (timers r) (nextPromise r) x (awaiting r)
            (microtasks r) (nextUtterance r) (console r).
Definition set_awaiting (x : list (nat * SpeakCall)) (r : Runtime) : Runtime :=
  mkRuntime (now r) (timers r) (nextPromise r) (resolved r) x
            (microtasks r) (nextUtterance r) (console r).
Definition set_microtasks (x : list SpeakCall) (r : Runtime) : Runtime :=
  mkRuntime (now r) (timers r) (nextPromise r) (resolved r) (awaiting r)
            x (nextUtterance r) (console r).
Definition set_nextUtterance (x : nat) (r : Runtime) : Runtime :=
  mkRuntime (now r) (timers r) (nextPromise r) (resolved r) (awaiting r)
            (microtasks r) x (console r).
Definition set_console (x : list string) (r : Runtime) : Runtime :=
  mkRuntime (now r) (timers r) (nextPromise r) (resolved r) (awaiting r)
            (microtasks r) (nextUtterance r) x.

Definition onClient (f : Client -> Client) (w : World) : World :=
  mkWorld (f (client w)) (engine w) (runtime w).
Definition onEngine (f : Engine -> Engine) (w : World) : World :=
  mkWorld (client w) (f (engine w)) (runtime w).
Definition onRuntime (f : Runtime -> Runtime) (w : World) : World :=
  mkWorld (client w) (engine w) (f (runtime w)).

(** ** Run-time and engine primitives *)

(** [setTimeout(task, delay)] *)
Definition setTimeout (t : TimerTask) (delay : Z) (w : World) : World :=
  onRuntime (fun r => set_timers (timers r ++ [mkTimer (now r + delay) t]) r) w.

Definition awaits (p : nat) (k : nat * SpeakCall) : bool := Nat.eqb (fst k) p.

(** [resolve()] of promise [p]: the calls awaiting it become ready; a
    second [resolve()] of the same promise does nothing. *)
Definition resolve (p : nat) (w : World) : World :=
  onRuntime (fun r =>
    if existsb (Nat.eqb p) (resolved r) then r
    else
      set_resolved (p :: resolved r)
        (set_microtasks
           (microtasks r ++ map snd (filter (awaits p) (awaiting r)))
           (set_awaiting
              (filter (fun k => negb (awaits p k)) (awaiting r)) r))) w.

(** [await] of promise [p] by the [speak] call [k]. *)
Definition await (p : nat) (k : SpeakCall) (w : World) : World :=
  onRuntime (fun r =>
    if existsb (Nat.eqb p) (resolved r)
    then set_microtasks (microtasks r ++ [k]) r
    else set_awaiting (awaiting r ++ [(p, k)]) r) w.

(** [this.synthesis.speak(utterance)] *)
Definition synthesis_speak (u : Utterance) (w : World) : World :=
  onEngine (fun e =>
    set_history (history e ++ [u]) (set_active (active e ++ [u]) e)) w.

(** [this.synthesis.cancel()] *)
Definition synthesis_cancel (w : World) : World :=
  onEngine (fun e =>
    set_active [] (set_cancelled (cancelled e ++ active e) e)) w.

Definition log (line : string) (w : World) : World :=
  onRuntime (fun r => set_console (console r ++ [line]) r) w.

(** ** VoiceSelector *)

Definition preferredVoices : list string :=
  [ "Google US English";
    "Microsoft Zira - English (United States)";
    "Microsoft David - English (United States)";
    "Alex";
    "Samantha";
    "Karen";
    "Moira" ].

Definition matchesPreferred (preferred : string) (v : Voice) : bool :=
  JsString.includes (name v) preferred
  || JsString.includes (JsString.toLowerCase (name v))
                       (JsString.toLowerCase preferred).

(** The [for (const preferred of preferredVoices)] loop; [Some] is its
    early [return]. *)
Fixpoint findPreferred (prefs : list string) (vs : list Voice)
  : option Voice :=
  match prefs with
  | [] => None
  | preferred :: prefs' =>
      match find (matchesPreferred preferred) vs with
      | Some voice => Some voice
      | None => findPreferred prefs' vs
      end
  end.

Definition isLocalEnglish (v : Voice) : bool :=
  JsString.startsWith (lang v) "en" && localService v.

Definition selectBestVoice (c : Client) : Client :=
  match findPreferred preferredVoices (voices c) with
  | Some voice => set_currentVoice (Some voice) c
  | None =>
      match find isLocalEnglish (voices c) with
      | Some englishVoice => set_currentVoice (Some englishVoice) c
      | None => set_currentVoice (nth_error (voices c) 0) c
      end
  end.

(** The voice [selectBestVoice] picks from a list of voices. *)
Definition bestVoice (vs : list Voice) : option Voice :=
  currentVoice
    (selectBestVoice (mkClient vs None false [] false
                               (mkSettings (9 # 10) 1 (9 # 10) 500))).

Definition setVoice (voiceName : string) (c : Client) : bool * Client :=
  match find (fun v => name v =? voiceName) (voices c) with
  | Some voice => (true, set_currentVoice (Some voice) c)
  | None => (false, c)
  end.

Definition getVoices (c : Client) : list Voice :=
  map (fun voice =>
         mkVoice (name voice) (lang voice) (localService voice)
                 (default voice))
      (voices c).

(** ** Initialization *)

(** The closure [loadVoices] of the [initialize] call whose promise is [p]. *)
Definition loadVoices (p : nat) (w : World) : World :=
  let w := onClient (set_voices (catalog (engine w))) w in
  match voices (client w) with
  | _ :: _ =>
      let w := onClient selectBestVoice w in
      let w := onClient (set_isInitialized true) w in
      resolve p w
  | [] => setTimeout (TLoadVoices p) 100 w
  end.

(** [initialize()]: returns the promise it makes. *)
Definition initialize (w : World) : nat * World :=
  let p := nextPromise (runtime w) in
  let w := onRuntime (set_nextPromise (S p)) w in
  let w :=
    match onvoiceschanged (engine w) with
    | SlotUndefined => w
    | _ => onEngine (set_onvoiceschanged (SlotLoadVoices p)) w
    end in
  (p, loadVoices p w).

(** ** UtteranceBuilder *)

Definition createUtterance (text : string) (signType : option string)
  (w : World) : Utterance :=
  let enhancedText := enhanceTextForSpeech text signType in
  let c := client w in
  match contextOf signType with
  | Own context =>
      mkUtterance (nextUtterance (runtime w)) enhancedText (currentVoice c)
        (Some (ctx_rate context)) (Some (ctx_pitch context))
        (Some (ctx_volume context)) text
  | Inherited =>
      mkUtterance (nextUtterance (runtime w)) enhancedText (currentVoice c)
        None None None text
  | Missing =>
      mkUtterance (nextUtterance (runtime w)) enhancedText (currentVoice c)
        (Some (vs_rate (voiceSettings c))) (Some (vs_pitch (voiceSettings c)))
        (Some (vs_volume (voiceSettings c))) text
  end.

(** ** QueueCoordinator *)

Definition processQueue (w : World) : World :=
  match speechQueue (client w) with
  | [] => w
  | speechItem :: rest =>
      if isSpeaking (client w) then w
      else
        let w := onClient (set_isSpeaking true) w in
        let w := onClient (set_speechQueue rest) w in
        let utterance :=
          createUtterance (text speechItem) (signType speechItem) w in
        let w :=
          onRuntime (fun r => set_nextUtterance (S (nextUtterance r)) r) w in
        synthesis_speak utterance w
  end.

(** What [speak] does once it is past [await this.initialize()]. *)
Definition speakBody (k : SpeakCall) (w : World) : World :=
  let speechItem :=
    mkItem (c_text k) (c_signType k) (c_priority k) (now (runtime w)) in
  let w :=
    if c_priority k =? "urgent" then
      let w := synthesis_cancel w in
      let w := onClient (set_speechQueue []) w in
      onClient (set_isSpeaking false) w
    else w in
  let w :=
    onClient (fun c => set_speechQueue (speechQueue c ++ [speechItem]) c) w in
  if isSpeaking (client w) then w else processQueue w.

(** [speak(text, signType, priority)], up to the point where the call
    returns to its caller: either all of it, or the part before the
    [await], the rest being left to the run time. *)
Definition speak (text : string) (signType : option string)
  (priority : string) (w : World) : World :=
  let k := mkSpeakCall text signType priority in
  if isInitialized (client w) then speakBody k w
  else
    let (p, w) := initialize w in
    await p k w.

Definition stop (w : World) : World :=
  let w := synthesis_cancel w in
  let w := onClient (set_speechQueue []) w in
  onClient (set_isSpeaking false) w.

Definition pause (w : World) : World := onEngine (set_paused true) w.

Definition resume (w : World) : World := onEngine (set_paused false) w.

Definition orElse {A} (o : option A) (d : A) : A :=
  match o with Some a => a | None => d end.

(** [{ ...this.voiceSettings, ...settings }] *)
Definition updateSettings (settings : SettingsPatch) (c : Client) : Client :=
  let s := voiceSettings c in
  set_voiceSettings
    (mkSettings (orElse (new_rate settings) (vs_rate s))
                (orElse (new_pitch settings) (vs_pitch s))
                (orElse (new_volume settings) (vs_volume s))
                (orElse (new_pauseBetween settings) (pauseBetween s))) c.

Record Status := mkStatus {
  st_isInitialized : bool;
  st_isSpeaking : bool;
  st_queueLength : nat;
  st_currentVoice : option string;
  st_settings : VoiceSettings
}.

Definition getStatus (c : Client) : Status :=
  mkStatus (isInitialized c) (isSpeaking c) (length (speechQueue c))
           (option_map name (currentVoice c)) (voiceSettings c).

(** The handlers [processQueue] puts on the utterance. *)

Definition onstart (u : Utterance) (w : World) : World :=
  log ("Speaking: " ++ u_label u) w.

Definition onend (w : World) : World :=
  let w := onClient (set_isSpeaking false) w in
  setTimeout TProcessQueue (pauseBetween (voiceSettings (client w))) w.

Definition onerror (reason : string) (w : World) : World :=
  let w := log ("Speech synthesis error: " ++ reason) w in
  let w := onClient (set_isSpeaking false) w in
  processQueue w.

(** ** The event loop *)

(** What the page can call on the client. *)
Inductive ApiCall :=
| CInitialize
| CSpeak (text : string) (signType : option string) (priority : string)
| CStop
| CPause
| CResume
| CSetVoice (voiceName : string)
| CUpdateSettings (settings : SettingsPatch).

Definition call (c : ApiCall) (w : World) : World :=
  match c with
  | CInitialize => snd (initialize w)
  | CSpeak text signType priority => speak text signType priority w
  | CStop => stop w
  | CPause => pause w
  | CResume => resume w
  | CSetVoice voiceName => onClient (fun c => snd (setVoice voiceName c)) w
  | CUpdateSettings settings => onClient (updateSettings settings) w
  end.

(** At the end of a task the run time resumes the [speak] calls whose
    promise is resolved, oldest first; resuming one makes no other ready. *)
Definition drain (w : World) : World :=
  fold_left (fun w k => speakBody k w) (microtasks (runtime w))
            (onRuntime (set_microtasks []) w).

(** One task of the event loop.  [Call cs] is a task of the page that makes
    the calls [cs] one after the other; the others are callbacks of the run
    time and of the engine, and what the environment does on its own. *)
Inductive Event :=
| Call (cs : list ApiCall)
| TimerFires (k : nat)
| Elapse (dt : Z)
| CatalogLoaded (vs : list Voice)
| VoicesChanged
| UtteranceStart (id : nat)
| UtteranceEnd (id : nat)
| UtteranceError (id : nat) (reason : string).

Definition runTimer (t : TimerTask) (w : World) : World :=
  match t with
  | TLoadVoices p => loadVoices p w
  | TProcessQueue => processQueue w
  end.

Fixpoint dropNth {A} (k : nat) (l : list A) : list A :=
  match l, k with
  | [], _ => []
  | _ :: l', O => l'
  | a :: l', S k' => a :: dropNth k' l'
  end.

Definition hasId (id : nat) (u : Utterance) : bool := Nat.eqb (u_id u) id.

Definition without (id : nat) (us : list Utterance) : list Utterance :=
  filter (fun u => negb (hasId id u)) us.

(** The engine dispatches the final event of utterance [id]: of one it is
    still working on, or, late, of one that was cancelled. *)
Definition finish (id : nat) (w : World) : option World :=
  if existsb (hasId id) (active (engine w)) then
    Some (onEngine (fun e => set_active (without id (active e)) e) w)
  else if existsb (hasId id) (cancelled (engine w)) then
    Some (onEngine (fun e => set_cancelled (without id (cancelled e)) e) w)
  else None.

(** [None]: the event cannot happen in this world (the timer is not due,
    the engine has no such utterance). *)
Definition step (e : Event) (w : World) : option World :=
  match e with
  | Call cs => Some (drain (fold_left (fun w c => call c w) cs w))
  | TimerFires k =>
      match nth_error (timers (runtime w)) k with
      | Some t =>
          if (due t <=? now (runtime w))%Z then
            let w :=
              onRuntime (fun r => set_timers (dropNth k (timers r)) r) w in
            Some (drain (runTimer (task t) w))
          else None
      | None => None
      end
  | Elapse dt =>
      if (0 <=? dt)%Z
      then Some (onRuntime (fun r => set_now (now r + dt) r) w)
      else None
  | CatalogLoaded vs => Some (onEngine (set_catalog vs) w)
  | VoicesChanged =>
      match onvoiceschanged (engine w) with
      | SlotLoadVoices p => Some (drain (loadVoices p w))
      | _ => Some w
      end
  | UtteranceStart id =>
      match find (hasId id) (active (engine w)) with
      | Some u => Some (drain (onstart u w))
      | None => None
      end
  | UtteranceEnd id =>
      match finish id w with
      | Some w => Some (drain (onend w))
      | None => None
      end
  | UtteranceError id reason =>
      match finish id w with
      | Some w => Some (drain (onerror reason w))
      | None => None
      end
  end.

Fixpoint run (es : list Event) (w : World) : option World :=
  match es with
  | [] => Some w
  | e :: es' =>
      match step e w with
      | Some w' => run es' w'
      | None => None
      end
  end.

(** [new EnhancedTTSClient()] in a page whose engine offers the voices [vs]
    at that moment. *)
Definition newClient : Client :=
  mkClient [] None false [] false (mkSettings (9 # 10) 1 (9 # 10) 500).

Definition boot (slot : VoicesChangedSlot) (vs : list Voice) : World :=
  let w := mkWorld newClient (mkEngine vs slot [] [] false [])
                   (mkRuntime 0 [] 0 [] [] [] 0 []) in
  drain (snd (initialize w)).

Definition reachable (w : World) : Prop :=
  exists slot vs es, run es (boot slot vs) = Some w.

(** ** Runs, observations and the properties under study *)

(** The texts handed to the engine so far, oldest first, and the texts
    still queued. *)
Definition played (w : World) : list string :=
  map u_label (history (engine w)).

Definition queued (w : World) : list string :=
  map text (speechQueue (client w)).

Definition inFlight (w : World) : list string :=
  map u_label (active (engine w)).

(** Everything the client was asked to say and did not drop: what it
    handed to the engine, then what it still holds. *)
Definition line (w : World) : list string := played w ++ queued w.


(** A [loadVoices] closure is registered for the engine's voices-changed
    event. *)
Definition listening (w : World) : Prop :=
  exists p, onvoiceschanged (engine w) = SlotLoadVoices p.

(** Nothing was ever queued or played, the engine offers no voice, and [n]
    [speak] calls wait for initialization. *)
Definition parked (n : nat) (w : World) : Prop :=
  catalog (engine w) = []
  /\ isInitialized (client w) = false
  /\ speechQueue (client w) = []
  /\ history (engine w) = []
  /\ active (engine w) = []
  /\ cancelled (engine w) = []
  /\ resolved (runtime w) = []
  /\ microtasks (runtime w) = []
  /\ length (awaiting (runtime w)) = n.




(** The texts of the [speak] calls of a run, in the order of the calls. *)
Definition spokenByCall (c : ApiCall) : list string :=
  match c with
  | CSpeak text _ _ => [text]
  | _ => []
  end.

Definition spokenBy (e : Event) : list string :=
  match e with
  | Call cs => flat_map spokenByCall cs
  | _ => []
  end.




(** Events in which [loadVoices] cannot run and [setVoice] is not called. *)
Definition quietCall (initialized : bool) (c : ApiCall) : bool :=
  match c with
  | CInitialize => false
  | CSetVoice _ => false
  | CSpeak _ _ _ => initialized
  | _ => true
  end.

Definition quiet (e : Event) (w : World) : bool :=
  match e with
  | Call cs => forallb (quietCall (isInitialized (client w))) cs
  | TimerFires k =>
      match nth_error (timers (runtime w)) k with
      | Some (mkTimer _ (TLoadVoices _)) => false
      | _ => true
      end
  | VoicesChanged =>
      match onvoiceschanged (engine w) with
      | SlotLoadVoices _ => false
      | _ => true
      end
  | _ => true
  end.

(** Events that leave the engine's voice list as it is. *)
Definition keepsCatalog (e : Event) : bool :=
  match e with
  | CatalogLoaded _ => false
  | _ => true
  end.


(** Statements of the specification that the program does not meet, as
    the specification words them. *)






(** After initialization only [setVoice] changes [currentVoice]. *)
Definition voiceAssignedOnce : Prop :=
  forall w e w',
    reachable w -> isInitialized (client w) = true ->
    (forall cs, e = Call cs ->
                forall voiceName, ~ In (CSetVoice voiceName) cs) ->
    step e w = Some w' ->
    currentVoice (client w') = currentVoice (client w).




(** ** Further notions: counting, settings patches, the callers *)

Fixpoint countChar (c : ascii) (s : string) : nat :=
  match s with
  | EmptyString => 0
  | String d s' => (if Ascii.eqb d c then 1 else 0) + countChar c s'
  end.

(** No period, exclamation mark or question mark. *)
Definition unpunctuated (s : string) : Prop :=
  countChar "." s = 0%nat /\ countChar "!" s = 0%nat
  /\ countChar "?" s = 0%nat.

(** No voice of the list matches a preferred name. *)
Definition nonePreferred (vs : list Voice) : Prop :=
  forall preferred v,
    In preferred preferredVoices -> In v vs ->
    matchesPreferred preferred v = false.

(** The object [{ ...p, ...q }] of two arguments of [updateSettings]. *)
Definition mergePatch (p q : SettingsPatch) : SettingsPatch :=
  mkPatch (match new_rate q with Some x => Some x | None => new_rate p end)
          (match new_pitch q with Some x => Some x | None => new_pitch p end)
          (match new_volume q with Some x => Some x | None => new_volume p end)
          (match new_pauseBetween q with
           | Some x => Some x
           | None => new_pauseBetween p
           end).

Definition emptyPatch : SettingsPatch := mkPatch None None None None.

(** The control panel (tts-control-panel.tsx) keeps in [status] what
    [getStatus()] returned last, refreshed every second, and calls the
    client from its handlers. *)

(** The setting a slider of the panel changes. *)
Inductive SettingKey := KRate | KPitch | KVolume.

(** [{ ...status.settings, [setting]: value }] *)
Definition newSettings (status : Status) (setting : SettingKey) (value : Q)
  : SettingsPatch :=
  let s := st_settings status in
  match setting with
  | KRate =>
      mkPatch (Some value) (Some (vs_pitch s)) (Some (vs_volume s))
              (Some (pauseBetween s))
  | KPitch =>
      mkPatch (Some (vs_rate s)) (Some value) (Some (vs_volume s))
              (Some (pauseBetween s))
  | KVolume =>
      mkPatch (Some (vs_rate s)) (Some (vs_pitch s)) (Some value)
              (Some (pauseBetween s))
  end.

(** The settings [s] with one of them replaced. *)
Definition withSetting (setting : SettingKey) (value : Q) (s : VoiceSettings)
  : VoiceSettings :=
  match setting with
  | KRate => mkSettings value (vs_pitch s) (vs_volume s) (pauseBetween s)
  | KPitch => mkSettings (vs_rate s) value (vs_volume s) (pauseBetween s)
  | KVolume => mkSettings (vs_rate s) (vs_pitch s) value (pauseBetween s)
  end.

(** [handleSettingChange(setting, value)], on the client. *)
Definition handleSettingChange (status : Status) (setting : SettingKey)
  (value : Q) (w : World) : World :=
  call (CUpdateSettings (newSettings status setting value)) w.



(** The page (its component [SignLanguageDetector]) keeps the latest
    detections: [[detection, ...prev.slice(0, 9)]]. *)
Definition pushRecent {A} (detection : A) (prev : list A) : list A :=
  detection :: firstn 9 prev.

(** [initializeTTS] of the page: [new EnhancedTTSClient()], then
    [initialize()] once more, in one task. *)
Definition initializeTTS (slot : VoicesChangedSlot) (vs : list Voice)
  : World :=
  drain (call CInitialize (boot slot vs)).

(** Every utterance handed to the engine so far has a voice. *)
Definition voiced (w : World) : Prop :=
  forall u, In u (history (engine w)) -> u_voice u <> None.

(** The client is initialized and has a current voice. *)
Definition started (w : World) : Prop :=
  isInitialized (client w) = true /\ currentVoice (client w) <> None.

(** The client is not initialized and has not done anything yet. *)
Definition dormant (w : World) : Prop :=
  isInitialized (client w) = false
  /\ resolved (runtime w) = []
  /\ microtasks (runtime w) = []
  /\ speechQueue (client w) = []
  /\ isSpeaking (client w) = false
  /\ history (engine w) = []
  /\ active (engine w) = []
  /\ cancelled (engine w) = [].

Definition sound (w : World) : Prop := (started w \/ dormant w) /\ voiced w.

(** A pending timer that polls for voices. *)
Definition isPoll (t : Timer) : bool :=
  match task t with
  | TLoadVoices _ => true
  | TProcessQueue => false
  end.

(** How many polls an event starts while the engine has no voice: one for
    every [initialize()] and every [speak] call, and one for a
    voices-changed event when the engine has such an event. *)
Definition armsByCall (c : ApiCall) : nat :=
  match c with
  | CInitialize => 1
  | CSpeak _ _ _ => 1
  | _ => 0
  end.

Definition armsBy (slot : VoicesChangedSlot) (e : Event) : nat :=
  match e with
  | Call cs => list_sum (map armsByCall cs)
  | VoicesChanged =>
      match slot with
      | SlotUndefined => 0
      | _ => 1
      end
  | _ => 0
  end.

(** The engine's voices-changed slot, given what it was when the client
    was made. *)
Definition slotKept (slot : VoicesChangedSlot) (w : World) : Prop :=
  match slot with
  | SlotUndefined => onvoiceschanged (engine w) = SlotUndefined
  | _ => listening w
  end.

Definition pollsPending (slot : VoicesChangedSlot) (m : nat) (w : World)
  : Prop :=
  length (timers (runtime w)) = m
  /\ forallb isPoll (timers (runtime w)) = true
  /\ slotKept slot w.

(** The utterance in flight ends, the pause passes, its timer fires. *)
Definition playNext (w : World) : option World :=
  match active (engine w) with
  | [u] =>
      run [ UtteranceEnd (u_id u);
            Elapse (Z.max 0 (pauseBetween (voiceSettings (client w))));
            TimerFires (length (timers (runtime w))) ] w
  | _ => None
  end.

Fixpoint playOut (n : nat) (w : World) : option World :=
  match n with
  | O => Some w
  | S n' =>
      match playNext w with
      | Some w' => playOut n' w'
      | None => None
      end
  end.

(** Events in which [resume()] is not called. *)
Definition resumeFree (e : Event) : bool :=
  match e with
  | Call cs =>
      forallb (fun c => match c with CResume => false | _ => true end) cs
  | _ => true
  end.

(** ** Sample voices and runs *)

Definition zira : Voice :=
  mkVoice "Microsoft Zira - English (United States)" "en-US" true true.

Definition plain : Voice := mkVoice "Plain" "en-GB" true false.

(** A page whose voices are loaded when the client is made. *)
Definition ready : World := boot SlotNull [plain; zira].



(** A page whose voices are not loaded yet when the client is made. *)
Definition early : World := boot SlotNull [].

(** "A" and "B" are requested before the voices are there; the voices
    arrive and the engine says so, which runs the [loadVoices] registered
    last, that of the [initialize] call made for "B"; then the three polls
    (of the constructor, of "A", of "B") come due, in their order;
    utterance 0, which carries "B", ends and the pause passes. *)
Definition startupRace : list Event :=
  [ Call [CSpeak "A" None "normal"];
    Call [CSpeak "B" None "normal"];
    CatalogLoaded [plain; zira];
    VoicesChanged;
    Elapse 100;
    TimerFires 0;
    TimerFires 0;
    TimerFires 0;
    UtteranceEnd 0;
    Elapse 500;
    TimerFires 0 ].



(** A remote English voice, a local French one and a local English one. *)
Definition remoteEnglish : Voice := mkVoice "Cloud" "en-US" false false.

Definition localFrench : Voice := mkVoice "Amelie" "fr-FR" true false.

Definition localEnglish : Voice := mkVoice "Daniel" "en-GB" true false.

(** * Properties *)

(** ** TextEnhancer *)

Local Open Scope string_scope.

Lemma string_app_assoc (a b c : string) : (a ++ b) ++ c = a ++ (b ++ c).
Proof.
  induction a as [|x a IH]; simpl; [reflexivity | now rewrite IH].
Qed.

Lemma replaceAll_app (c : ascii) (by_ s1 s2 : string) :
  JsString.replaceAll c by_ (s1 ++ s2)
  = JsString.replaceAll c by_ s1 ++ JsString.replaceAll c by_ s2.
Proof.
  induction s1 as [|d s1 IH]; simpl; [reflexivity|].
  destruct (Ascii.eqb d c); rewrite IH.
  - now rewrite string_app_assoc.
  - reflexivity.
Qed.

Lemma addPauses_app (s1 s2 : string) :
  addPauses (s1 ++ s2) = addPauses s1 ++ addPauses s2.
Proof.
  unfold addPauses. now rewrite !replaceAll_app.
Qed.

Lemma addPauses_char (c : ascii) :
  addPauses (String c EmptyString) = expandChar c.
Proof.
  unfold addPauses, expandChar. simpl.
  destruct (Ascii.eqb_spec c "."%char) as [->|Hdot]; [reflexivity|].
  simpl.
  destruct (Ascii.eqb_spec c "!"%char) as [->|Hbang]; [reflexivity|].
  simpl.
  destruct (Ascii.eqb_spec c "?"%char) as [->|Hq]; reflexivity.
Qed.

Lemma expandPunctuation_app (s1 s2 : string) :
  expandPunctuation (s1 ++ s2) = expandPunctuation s1 ++ expandPunctuation s2.
Proof.
  induction s1 as [|c s1 IH]; simpl; [reflexivity|].
  now rewrite IH, string_app_assoc.
Qed.

(** The three successive replacements amount to one pass over the text. *)
Lemma addPauses_expandPunctuation (s : string) :
  addPauses s = expandPunctuation s.
Proof.
  induction s as [|c s IH]; [reflexivity|].
  change (String c s) with (String c EmptyString ++ s).
  rewrite addPauses_app, addPauses_char, IH. reflexivity.
Qed.

Lemma string_app_nil_r (a : string) : a ++ "" = a.
Proof.
  induction a as [|x a IH]; simpl; [reflexivity | now rewrite IH].
Qed.

(** Every branch of the [switch] puts the text, as it is, between two fixed
    strings. *)
Lemma toneTemplate_frames (tone : string) :
  exists before after, forall text,
    toneTemplate tone text = before ++ text ++ after.
Proof.
  unfold toneTemplate.
  destruct (tone =? "friendly").
  { exists "Hello there! ", "". intros. now rewrite string_app_nil_r. }
  destruct (tone =? "grateful").
  { exists "", ". I really appreciate it.". reflexivity. }
  destruct (tone =? "apologetic").
  { exists "I'm ", ". Please forgive me.". reflexivity. }
  destruct (tone =? "urgent").
  { exists "I need ", ". Can you help me?". reflexivity. }
  destruct (tone =? "polite").
  { exists "", ". Would that be possible?". reflexivity. }
  destruct (tone =? "warm").
  { exists "I ", " you so much.". reflexivity. }
  destruct (tone =? "positive").
  { exists "That's ", "! Excellent!". reflexivity. }
  destruct (tone =? "concerned").
  { exists "That's ", ". I'm worried about this.". reflexivity. }
  exists "", "". intros. simpl. now rewrite string_app_nil_r.
Qed.

(** C5, the claim as worded fails: the space that follows the period in the
    input is kept after the inserted ellipsis and space, so the result has
    two spaces there. *)
Lemma enhance_hi_bye_is_not_the_stated_text :
  enhanceTextForSpeech "Hi. Bye!" None <> "Hi... Bye! ".
Proof. vm_compute. discriminate. Qed.

(** C5, amended: without a sign type, [enhanceTextForSpeech] replaces every
    period by an ellipsis and a space, every exclamation mark and every
    question mark by itself and a space, and keeps every other character;
    on "Hi. Bye!" this gives "Hi...  Bye! ", with two spaces after the
    ellipsis. *)
Theorem enhance_untagged_expands_each_mark :
  (forall text, enhanceTextForSpeech text None = expandPunctuation text)
  /\ expandChar "." = "... " /\ expandChar "!" = "! "
  /\ expandChar "?" = "? "
  /\ enhanceTextForSpeech "Hi. Bye!" None = "Hi...  Bye! ".
Proof.
  split; [|repeat split; reflexivity].
  intros text. unfold enhanceTextForSpeech, toneWrap. simpl.
  apply addPauses_expandPunctuation.
Qed.

(** C4, the claim as worded fails on its second example: the template's
    space after the interpolated text follows the space of the expanded
    period, so two spaces separate the ellipsis from "you". *)
Lemma enhance_love_is_not_the_stated_text :
  enhanceTextForSpeech "I am happy." (Some "love")
  <> "I I am happy... you so much... ".
Proof. vm_compute. discriminate. Qed.

(** C4, amended: [enhanceTextForSpeech] first wraps the text, unchanged,
    into the one template of the sign type's tone, then expands the
    punctuation of the wrapped text, the template's own included.  For
    "thank_you" the gratitude clause is appended once; "Hello" gives
    "Hello...  I really appreciate it... " and "I am happy." with "love"
    gives "I I am happy...  you so much... " (two spaces after the first
    ellipsis in both). *)
Theorem enhance_wraps_then_expands :
  (forall signType, exists before after, forall text,
      toneWrap text signType = before ++ text ++ after
      /\ enhanceTextForSpeech text signType
         = expandPunctuation before ++ expandPunctuation text
           ++ expandPunctuation after)
  /\ (forall text,
        enhanceTextForSpeech text (Some "thank_you")
        = expandPunctuation text ++ "...  I really appreciate it... ")
  /\ (forall text,
        enhanceTextForSpeech text (Some "love")
        = "I " ++ expandPunctuation text ++ " you so much... ")
  /\ enhanceTextForSpeech "Hello" (Some "thank_you")
     = "Hello...  I really appreciate it... "
  /\ enhanceTextForSpeech "I am happy." (Some "love")
     = "I I am happy...  you so much... ".
Proof.
  split; [|split; [|split; [|split; reflexivity]]].
  - intros signType.
    assert (Hframe : exists before after, forall text,
               toneWrap text signType = before ++ text ++ after).
    { unfold toneWrap. destruct (contextOf signType) as [ctx| |].
      - apply toneTemplate_frames.
      - exists "", "". intros. simpl. now rewrite string_app_nil_r.
      - exists "", "". intros. simpl. now rewrite string_app_nil_r. }
    destruct Hframe as (before & after & H).
    exists before, after. intros text. split; [apply H|].
    unfold enhanceTextForSpeech. rewrite H, addPauses_expandPunctuation.
    now rewrite !expandPunctuation_app.
  - intros text. unfold enhanceTextForSpeech, toneWrap. simpl.
    unfold toneTemplate. simpl.
    rewrite addPauses_expandPunctuation, expandPunctuation_app. reflexivity.
  - intros text. unfold enhanceTextForSpeech, toneWrap. simpl.
    unfold toneTemplate. simpl.
    rewrite addPauses_expandPunctuation.
    change (String "I" (String " " (text ++ " you so much.")))
      with ("I " ++ (text ++ " you so much.")).
    rewrite !expandPunctuation_app. reflexivity.
Qed.

Local Open Scope list_scope.

(** ** VoiceSelector: [setVoice] *)

Lemma onClient_id (w : World) : onClient (fun c => c) w = w.
Proof. destruct w; reflexivity. Qed.

(** C7: [setVoice] with a name that no voice of the client's list bears
    returns false and changes nothing, so that [getStatus] reports the same
    current voice as before; with a name that some voice bears it makes a
    voice of that name the current one and returns true. *)
Theorem setVoice_exact_match_or_nothing (w : World) (voiceName : string) :
  ((forall v, In v (voices (client w)) -> name v <> voiceName) ->
   setVoice voiceName (client w) = (false, client w)
   /\ call (CSetVoice voiceName) w = w
   /\ st_currentVoice (getStatus (client (call (CSetVoice voiceName) w)))
      = st_currentVoice (getStatus (client w)))
  /\ ((exists v, In v (voices (client w)) /\ name v = voiceName) ->
      exists voice,
        In voice (voices (client w)) /\ name voice = voiceName
        /\ setVoice voiceName (client w)
           = (true, set_currentVoice (Some voice) (client w))
        /\ currentVoice (client (call (CSetVoice voiceName) w)) = Some voice).
Proof.
  split.
  - intros Hnone.
    assert (Hfind : find (fun v => (name v =? voiceName)%string)
                         (voices (client w)) = None).
    { destruct (find _ (voices (client w))) as [v|] eqn:E; [|reflexivity].
      apply find_some in E. destruct E as [Hin Heq].
      apply String.eqb_eq in Heq. now apply Hnone in Hin. }
    assert (Hset : setVoice voiceName (client w) = (false, client w)).
    { unfold setVoice. now rewrite Hfind. }
    assert (Hcall : call (CSetVoice voiceName) w = w).
    { simpl. destruct w as [c e r]. unfold onClient. simpl in *.
      now rewrite Hset. }
    repeat split; [exact Hset | exact Hcall | now rewrite Hcall].
  - intros (v & Hin & Hname).
    destruct (find (fun v => (name v =? voiceName)%string)
                   (voices (client w))) as [voice|] eqn:E.
    + pose proof (find_some _ _ E) as [Hin' Heq].
      apply String.eqb_eq in Heq.
      exists voice. repeat split; try assumption.
      * unfold setVoice. now rewrite E.
      * simpl. unfold setVoice. now rewrite E.
    + pose proof (find_none _ _ E v Hin) as Hf. simpl in Hf.
      apply String.eqb_neq in Hf. contradiction.
Qed.

Lemma setVoice_exact_match_or_nothing_witness :
  (setVoice "NonexistentVoiceXYZ" (client (boot SlotNull [plain; zira]))
   = (false, client (boot SlotNull [plain; zira]))
   /\ call (CSetVoice "NonexistentVoiceXYZ") (boot SlotNull [plain; zira])
      = boot SlotNull [plain; zira]
   /\ st_currentVoice
        (getStatus (client (call (CSetVoice "NonexistentVoiceXYZ")
                                 (boot SlotNull [plain; zira]))))
      = st_currentVoice (getStatus (client (boot SlotNull [plain; zira]))))
  /\ exists voice,
      In voice (voices (client (boot SlotNull [plain; zira])))
      /\ name voice = "Plain"%string
      /\ setVoice "Plain" (client (boot SlotNull [plain; zira]))
         = (true, set_currentVoice (Some voice)
                    (client (boot SlotNull [plain; zira])))
      /\ currentVoice (client (call (CSetVoice "Plain")
                                    (boot SlotNull [plain; zira])))
         = Some voice.
Proof.
  split.
  - apply (proj1 (setVoice_exact_match_or_nothing
                    (boot SlotNull [plain; zira]) "NonexistentVoiceXYZ")).
    intros v Hin. vm_compute in Hin.
    destruct Hin as [<-|[<-|[]]]; discriminate.
  - apply (proj2 (setVoice_exact_match_or_nothing
                    (boot SlotNull [plain; zira]) "Plain")).
    exists plain. split; [vm_compute; auto | reflexivity].
Defined.

(** ** QueueCoordinator: [stop] *)

(** C8: after [stop()], whatever the queue held and whether or not the
    client was speaking, [getStatus] reports that it is not speaking and
    that the queue is empty; a second [stop()] changes nothing more. *)
Theorem stop_clears_and_is_idempotent (w : World) :
  st_isSpeaking (getStatus (client (stop w))) = false
  /\ st_queueLength (getStatus (client (stop w))) = 0%nat
  /\ stop (stop w) = stop w
  /\ getStatus (client (stop (stop w))) = getStatus (client (stop w))
  /\ step (Call [CStop; CStop]) w = step (Call [CStop]) w.
Proof.
  assert (Hidem : stop (stop w) = stop w).
  { destruct w as [c e r]. unfold stop, synthesis_cancel, onClient, onEngine.
    simpl. unfold set_active, set_cancelled. simpl.
    now rewrite app_nil_r. }
  split; [reflexivity|]. split; [reflexivity|]. split; [exact Hidem|].
  split; [now rewrite Hidem|].
  simpl. now rewrite Hidem.
Qed.

(** ** The event loop: what each operation leaves alone *)

Ltac unfold_ops :=
  repeat progress
    (unfold stop, pause, resume, speak, initialize, speakBody, onend, onerror,
       onstart, runTimer, processQueue, loadVoices, await, resolve,
       setTimeout, synthesis_speak, synthesis_cancel, log, createUtterance,
       selectBestVoice, setVoice, updateSettings,
       onClient, onEngine, onRuntime in *).

Ltac break_match :=
  repeat (cbn in *;
          match goal with
          | |- context [match ?x with _ => _ end] => destruct x eqn:?
          end);
  cbn in *.

Ltac frame := intros; unfold_ops; break_match; try reflexivity; auto.



Lemma drain_idle (w : World) : microtasks (runtime w) = [] -> drain w = w.
Proof.
  intros H. unfold drain. rewrite H. simpl.
  destruct w as [c e r]. destruct r. simpl in H. subst. reflexivity.
Qed.




Lemma reachable_step (e : Event) (w w' : World) :
  reachable w -> step e w = Some w' -> reachable w'.
Proof.
  intros (slot & vs & es & Hrun) Hstep.
  exists slot, vs, (es ++ [e]).
  revert Hrun. generalize (boot slot vs).
  induction es as [|e0 es IH]; intros w0 Hrun; simpl in *.
  - inversion Hrun; subst. now rewrite Hstep.
  - destruct (step e0 w0); [now apply IH | discriminate].
Qed.

(** ** One utterance in flight *)

















(** ** Late events of cancelled utterances *)






(** ** Order of play *)



















(** ** Automatic voice selection *)

Lemma selectBestVoice_current (c : Client) :
  currentVoice (selectBestVoice c) = bestVoice (voices c).
Proof.
  unfold bestVoice, selectBestVoice. cbn [voices].
  destruct (findPreferred preferredVoices (voices c)); [reflexivity|].
  destruct (find isLocalEnglish (voices c)); reflexivity.
Qed.

Lemma loadVoices_current (p : nat) (w : World) :
  catalog (engine w) <> [] ->
  currentVoice (client (loadVoices p w)) = bestVoice (catalog (engine w)).
Proof.
  intros Hne. unfold loadVoices. cbn.
  destruct (catalog (engine w)) as [|v vs] eqn:Hc; [contradiction|].
  replace (currentVoice (client (resolve p _)))
    with (currentVoice (selectBestVoice (set_voices (v :: vs) (client w)))).
  - now rewrite selectBestVoice_current.
  - unfold resolve, onRuntime, onClient. cbn. reflexivity.
Qed.

Lemma speakBody_voice (k : SpeakCall) (w : World) :
  currentVoice (client (speakBody k w)) = currentVoice (client w)
  /\ isInitialized (client (speakBody k w)) = isInitialized (client w).
Proof. split; frame. Qed.

Lemma drain_voice (w : World) :
  currentVoice (client (drain w)) = currentVoice (client w).
Proof.
  unfold drain.
  change (currentVoice (client w))
    with (currentVoice (client (onRuntime (set_microtasks []) w))).
  generalize (onRuntime (set_microtasks []) w).
  induction (microtasks (runtime w)) as [|k ks IH]; intros w0; simpl.
  - reflexivity.
  - rewrite IH. apply speakBody_voice.
Qed.

Lemma call_quiet (c : ApiCall) (w : World) :
  quietCall (isInitialized (client w)) c = true ->
  currentVoice (client (call c w)) = currentVoice (client w)
  /\ isInitialized (client (call c w)) = isInitialized (client w).
Proof.
  intros Hq.
  destruct c as [|t s p| | | | |]; simpl in *;
    try discriminate; try (split; reflexivity).
  unfold speak.
  destruct (speakBody_voice (mkSpeakCall t s p) w) as [A B].
  rewrite Hq. split; [exact A | now rewrite B].
Qed.

Lemma calls_quiet (cs : list ApiCall) :
  forall w, forallb (quietCall (isInitialized (client w))) cs = true ->
            currentVoice (client (fold_left (fun w c => call c w) cs w))
            = currentVoice (client w).
Proof.
  induction cs as [|c cs IH]; intros w Hq; simpl in *; [reflexivity|].
  apply andb_true_iff in Hq. destruct Hq as [Hc Hcs].
  destruct (call_quiet c w Hc) as [Hv Hi].
  rewrite IH; [exact Hv | now rewrite Hi].
Qed.

Lemma finish_client (id : nat) (w w1 : World) :
  finish id w = Some w1 -> client w1 = client w.
Proof.
  unfold finish. intros H.
  destruct (existsb _ (active _)); [now inversion H|].
  destruct (existsb _ (cancelled _)); [now inversion H | discriminate].
Qed.

Lemma step_quiet (e : Event) (w w' : World) :
  step e w = Some w' -> quiet e w = true ->
  currentVoice (client w') = currentVoice (client w).
Proof.
  intros Hstep Hq. destruct e; simpl in *.
  - inversion Hstep. rewrite drain_voice. now apply calls_quiet.
  - destruct (nth_error _ _) as [[d t]|]; [|discriminate].
    destruct (_ <=? _)%Z; [|discriminate].
    destruct t; [discriminate|].
    inversion Hstep. rewrite drain_voice. simpl. frame.
  - destruct (_ <=? _)%Z; inversion Hstep; subst. reflexivity.
  - inversion Hstep; subst. reflexivity.
  - destruct (onvoiceschanged _); inversion Hstep; subst;
      [reflexivity | reflexivity | discriminate].
  - destruct (find _ _); inversion Hstep. rewrite drain_voice. reflexivity.
  - destruct (finish id w) as [w1|] eqn:Hf; [|discriminate].
    inversion Hstep. rewrite drain_voice. cbn.
    now rewrite (finish_client _ _ _ Hf).
  - destruct (finish id w) as [w1|] eqn:Hf; [|discriminate].
    inversion Hstep. rewrite drain_voice.
    replace (currentVoice (client (onerror reason w1)))
      with (currentVoice (client w1)) by frame.
    now rewrite (finish_client _ _ _ Hf).
Qed.

(** Once an [initialize] call has put its [loadVoices] on the engine, a
    [loadVoices] stays there. *)
Lemma loadVoices_slot (p : nat) (w : World) :
  onvoiceschanged (engine (loadVoices p w)) = onvoiceschanged (engine w).
Proof. frame. Qed.

Lemma speakBody_slot (k : SpeakCall) (w : World) :
  onvoiceschanged (engine (speakBody k w)) = onvoiceschanged (engine w).
Proof. frame. Qed.

Lemma initialize_listening (w : World) :
  listening w -> listening (snd (initialize w)).
Proof.
  intros (p & Hp). unfold listening, initialize. cbn.
  rewrite loadVoices_slot, Hp. cbn. eauto.
Qed.

Lemma call_listening (c : ApiCall) (w : World) :
  listening w -> listening (call c w).
Proof.
  intros H. destruct c; simpl; try exact H.
  - now apply initialize_listening.
  - unfold speak. destruct (isInitialized (client w)).
    + unfold listening. now rewrite speakBody_slot.
    + destruct (initialize w) as [p w1] eqn:E.
      assert (H1 : listening w1).
      { change w1 with (snd (p, w1)). rewrite <- E.
        now apply initialize_listening. }
      exact H1.
Qed.

Lemma calls_listening (cs : list ApiCall) :
  forall w, listening w -> listening (fold_left (fun w c => call c w) cs w).
Proof.
  induction cs as [|c cs IH]; intros w H; simpl; [exact H|].
  apply IH. now apply call_listening.
Qed.

Lemma drain_listening (w : World) : listening w -> listening (drain w).
Proof.
  intros H. unfold drain.
  assert (H0 : listening (onRuntime (set_microtasks []) w)) by exact H.
  revert H0. generalize (onRuntime (set_microtasks []) w).
  induction (microtasks (runtime w)) as [|k ks IH]; intros w0 H0; simpl.
  - exact H0.
  - apply IH. unfold listening. now rewrite speakBody_slot.
Qed.

Lemma step_listening (e : Event) (w w' : World) :
  listening w -> step e w = Some w' -> listening w'.
Proof.
  intros H Hstep. destruct e; simpl in Hstep.
  - inversion Hstep. apply drain_listening. now apply calls_listening.
  - destruct (nth_error _ _) as [t|]; [|discriminate].
    destruct (_ <=? _)%Z; [|discriminate].
    inversion Hstep. apply drain_listening.
    destruct (task t); simpl; unfold listening.
    + now rewrite loadVoices_slot.
    + replace (onvoiceschanged (engine (processQueue _)))
        with (onvoiceschanged (engine w)) by frame.
      exact H.
  - destruct (_ <=? _)%Z; inversion Hstep; subst. exact H.
  - inversion Hstep; subst. exact H.
  - destruct H as (p & Hp). rewrite Hp in Hstep. inversion Hstep.
    apply drain_listening. unfold listening.
    rewrite loadVoices_slot. eauto.
  - destruct (find _ _); inversion Hstep. apply drain_listening. exact H.
  - destruct (finish id w) as [w1|] eqn:Hf; [|discriminate].
    inversion Hstep. apply drain_listening.
    unfold finish in Hf.
    destruct (existsb _ (active _)); [inversion Hf; exact H|].
    destruct (existsb _ (cancelled _)); [inversion Hf; exact H|discriminate].
  - destruct (finish id w) as [w1|] eqn:Hf; [|discriminate].
    inversion Hstep. apply drain_listening.
    unfold listening.
    replace (onvoiceschanged (engine (onerror reason w1)))
      with (onvoiceschanged (engine w1)) by frame.
    unfold finish in Hf.
    destruct (existsb _ (active _)); [inversion Hf; exact H|].
    destruct (existsb _ (cancelled _)); [inversion Hf; exact H|discriminate].
Qed.

Lemma run_listening (es : list Event) :
  forall w w', listening w -> run es w = Some w' -> listening w'.
Proof.
  induction es as [|e es IH]; intros w w' H Hrun; simpl in Hrun.
  - inversion Hrun. now subst.
  - destruct (step e w) as [w1|] eqn:E; [|discriminate].
    eapply IH; [|exact Hrun]. eapply step_listening; eassumption.
Qed.

Lemma boot_listening (vs : list Voice) : listening (boot SlotNull vs).
Proof.
  unfold boot. apply drain_listening.
  unfold listening, initialize. cbn. rewrite loadVoices_slot. cbn. eauto.
Qed.

(** C6, the claim as worded fails: after the page has chosen the voice
    "Plain", a voices-changed event of the engine runs [loadVoices] again,
    which puts the preferred voice back. *)
Lemma voices_changed_overrides_the_chosen_voice : ~ voiceAssignedOnce.
Proof.
  intros H.
  assert (Hw : exists w w',
             run [Call [CSetVoice "Plain"]] ready = Some w
             /\ isInitialized (client w) = true
             /\ step VoicesChanged w = Some w'
             /\ option_map name (currentVoice (client w)) = Some "Plain"%string
             /\ option_map name (currentVoice (client w'))
                = Some (name zira)).
  { eexists. eexists. split; [vm_compute; reflexivity|].
    split; [reflexivity|]. split; [vm_compute; reflexivity|].
    split; reflexivity. }
  destruct Hw as (w & w' & Hrun & Hi & Hstep & Hv & Hv').
  assert (Hsame : currentVoice (client w') = currentVoice (client w)).
  { apply (H w VoicesChanged w'); try assumption.
    - exists SlotNull, [plain; zira]. eexists. exact Hrun.
    - intros cs Hcs. discriminate. }
  rewrite Hsame, Hv in Hv'. discriminate.
Qed.

(** C6, amended: [currentVoice] is assigned automatically every time
    [loadVoices] finds a voice: at initialization and again at every later
    voices-changed event of the engine (the handler stays registered) and
    at every repeated [initialize()], each time with the voice
    [selectBestVoice] picks, whatever the page had chosen.  Steps in which
    [loadVoices] does not run and [setVoice] is not called leave it as it
    is. *)
Theorem current_voice_is_reselected_on_every_reload :
  (forall w e w',
      step e w = Some w' -> quiet e w = true ->
      currentVoice (client w') = currentVoice (client w))
  /\ (forall vs es w,
         run es (boot SlotNull vs) = Some w -> catalog (engine w) <> [] ->
         exists w', step VoicesChanged w = Some w'
                    /\ currentVoice (client w')
                       = bestVoice (catalog (engine w)))
  /\ (forall w,
         catalog (engine w) <> [] ->
         exists w', step (Call [CInitialize]) w = Some w'
                    /\ currentVoice (client w')
                       = bestVoice (catalog (engine w))).
Proof.
  split; [|split].
  - intros w e w' Hstep Hq. now apply (step_quiet e w w').
  - intros vs es w Hrun Hne.
    destruct (run_listening es _ _ (boot_listening vs) Hrun) as (p & Hp).
    eexists. split; [simpl; rewrite Hp; reflexivity|].
    rewrite drain_voice. now apply loadVoices_current.
  - intros w Hne. eexists. split; [reflexivity|].
    rewrite drain_voice. simpl. unfold initialize. cbn.
    rewrite loadVoices_current.
    + destruct (onvoiceschanged (engine w)); reflexivity.
    + destruct (onvoiceschanged (engine w)); exact Hne.
Qed.

Lemma current_voice_is_reselected_on_every_reload_witness :
  exists w,
    run [Call [CSetVoice "Plain"]] ready = Some w
    /\ option_map name (currentVoice (client w)) = Some "Plain"%string
    /\ exists w', step VoicesChanged w = Some w'
                  /\ currentVoice (client w') = Some zira.
Proof.
  eexists. split; [vm_compute; reflexivity|]. split; [reflexivity|].
  match goal with
  | |- exists w', step _ ?w = _ /\ _ =>
      destruct (proj1 (proj2 current_voice_is_reselected_on_every_reload)
                  [plain; zira] [Call [CSetVoice "Plain"]] w)
        as (w' & Hstep & Hv);
      [ vm_compute; reflexivity
      | vm_compute; discriminate
      | exists w'; split; [exact Hstep | rewrite Hv; reflexivity] ]
  end.
Defined.

(** ** [speak] before and after initialization *)

Ltac destruct_world w :=
  destruct w as [[vs cv ini q sp st] [cat slot act can pau his]
                   [nw tm np rs aw mt nu co]].

Ltac use_parked H :=
  unfold parked in *;
  destruct H as (Hcat & Hini & Hq & Hhis & Hact & Hcan & Hrs & Hmt & Haw);
  cbn in *; subst.

Lemma loadVoices_parked (p n : nat) (w : World) :
  parked n w -> parked n (loadVoices p w).
Proof.
  intros H. destruct_world w. use_parked H.
  unfold_ops. cbn. repeat split.
Qed.

Lemma initialize_parked (n : nat) (w : World) :
  parked n w -> parked n (snd (initialize w)).
Proof.
  intros H. unfold initialize. cbn [snd]. apply loadVoices_parked.
  destruct_world w. use_parked H.
  destruct slot; cbn; repeat split.
Qed.

Lemma processQueue_parked (n : nat) (w : World) :
  parked n w -> processQueue w = w.
Proof.
  intros H. destruct_world w. use_parked H. reflexivity.
Qed.

Lemma call_parked (c : ApiCall) (n : nat) (w : World) :
  parked n w -> parked (n + length (spokenByCall c)) (call c w).
Proof.
  intros H. destruct c as [|t s p| | | |voiceName|settings]; simpl;
    rewrite ?Nat.add_0_r.
  - now apply initialize_parked.
  - unfold speak.
    assert (Hu : isInitialized (client w) = false) by apply H.
    rewrite Hu. clear Hu.
    pose proof (initialize_parked n w H) as H1.
    destruct (initialize w) as [p0 w1]. cbn [snd] in H1.
    destruct_world w1. use_parked H1.
    unfold await, onRuntime. cbn. rewrite length_app. cbn.
    repeat split.
  - destruct_world w. use_parked H. unfold_ops. cbn. repeat split.
  - destruct_world w. use_parked H. unfold_ops. cbn. repeat split.
  - destruct_world w. use_parked H. unfold_ops. cbn. repeat split.
  - destruct_world w. use_parked H. unfold_ops. cbn.
    destruct (find _ vs); cbn; repeat split.
  - destruct_world w. use_parked H. unfold_ops. cbn. repeat split.
Qed.

Lemma calls_parked (cs : list ApiCall) :
  forall n w, parked n w ->
              parked (n + length (flat_map spokenByCall cs))
                     (fold_left (fun w c => call c w) cs w).
Proof.
  induction cs as [|c cs IH]; intros n w H; simpl.
  - now rewrite Nat.add_0_r.
  - rewrite length_app, Nat.add_assoc. apply IH. now apply call_parked.
Qed.

Lemma parked_drain (n : nat) (w : World) : parked n w -> drain w = w.
Proof. intros H. apply drain_idle. apply H. Qed.

Lemma step_parked (e : Event) (n : nat) (w w' : World) :
  parked n w -> keepsCatalog e = true -> step e w = Some w' ->
  parked (n + length (spokenBy e)) w'.
Proof.
  intros H Hk Hstep. destruct e; simpl in *; rewrite ?Nat.add_0_r;
    try discriminate.
  - pose proof (calls_parked cs n w H) as H1.
    rewrite (parked_drain _ _ H1) in Hstep. inversion Hstep; subst.
    exact H1.
  - destruct (nth_error _ _) as [t|]; [|discriminate].
    destruct (_ <=? _)%Z; [|discriminate].
    match type of Hstep with
    | Some (drain (runTimer _ ?x)) = _ => assert (Hx : parked n x)
    end.
    { destruct_world w. use_parked H. repeat split. }
    destruct (task t); simpl in Hstep.
    + pose proof (loadVoices_parked p n _ Hx) as H1.
      rewrite (parked_drain _ _ H1) in Hstep. inversion Hstep; subst.
      exact H1.
    + rewrite (processQueue_parked _ _ Hx) in Hstep.
      rewrite (parked_drain _ _ Hx) in Hstep. inversion Hstep; subst.
      exact Hx.
  - destruct (_ <=? _)%Z; inversion Hstep; subst.
    destruct_world w. use_parked H. repeat split.
  - destruct (onvoiceschanged _); inversion Hstep; subst; try exact H.
    pose proof (loadVoices_parked p n _ H) as H1.
    rewrite (parked_drain _ _ H1). exact H1.
  - assert (Hact : active (engine w) = []) by apply H.
    rewrite Hact in Hstep. discriminate.
  - unfold finish in Hstep.
    assert (Hact : active (engine w) = []) by apply H.
    assert (Hcan : cancelled (engine w) = []) by apply H.
    rewrite Hact, Hcan in Hstep. discriminate.
  - unfold finish in Hstep.
    assert (Hact : active (engine w) = []) by apply H.
    assert (Hcan : cancelled (engine w) = []) by apply H.
    rewrite Hact, Hcan in Hstep. discriminate.
Qed.


Lemma boot_parked (slot : VoicesChangedSlot) : parked 0 (boot slot []).
Proof.
  unfold boot.
  match goal with
  | |- parked 0 (drain (snd (initialize ?x))) =>
      assert (H : parked 0 (snd (initialize x)))
  end.
  { apply initialize_parked. repeat split. }
  now rewrite (parked_drain _ _ H).
Qed.





(** ** Urgent requests on an idle client *)




(** * Further properties of the client and of its callers *)

(** ** TextEnhancer: lengths and repeated enhancement *)

Local Open Scope string_scope.

Lemma length_append (a b : string) :
  String.length (a ++ b) = (String.length a + String.length b)%nat.
Proof. induction a as [|c a IH]; simpl; [reflexivity | now rewrite IH]. Qed.

Lemma countChar_append (c : ascii) (a b : string) :
  countChar c (a ++ b) = (countChar c a + countChar c b)%nat.
Proof.
  induction a as [|d a IH]; simpl; [reflexivity|]. rewrite IH. lia.
Qed.

Lemma expandChar_length (c : ascii) :
  String.length (expandChar c)
  = (1 + 3 * (if Ascii.eqb c "." then 1 else 0)
       + (if Ascii.eqb c "!" then 1 else 0)
       + (if Ascii.eqb c "?" then 1 else 0))%nat.
Proof.
  unfold expandChar.
  destruct (Ascii.eqb_spec c "."%char) as [->|H1]; [reflexivity|].
  destruct (Ascii.eqb_spec c "!"%char) as [->|H2]; [reflexivity|].
  destruct (Ascii.eqb_spec c "?"%char) as [->|H3]; reflexivity.
Qed.

Lemma expandPunctuation_length (s : string) :
  String.length (expandPunctuation s)
  = (String.length s + 3 * countChar "." s + countChar "!" s
     + countChar "?" s)%nat.
Proof.
  induction s as [|c s IH]; simpl; [reflexivity|].
  rewrite length_append, expandChar_length, IH. lia.
Qed.

Lemma expandChar_count (c d : ascii) :
  d = "."%char \/ d = "!"%char \/ d = "?"%char ->
  countChar d (expandChar c)
  = ((if Ascii.eqb d "." then 3 else 1) * (if Ascii.eqb c d then 1 else 0))%nat.
Proof.
  unfold expandChar. intros [-> | [-> | ->]];
    destruct (Ascii.eqb_spec c "."%char) as [->|H1]; try reflexivity;
    destruct (Ascii.eqb_spec c "!"%char) as [->|H2]; try reflexivity;
    destruct (Ascii.eqb_spec c "?"%char) as [->|H3]; try reflexivity;
    simpl;
    repeat match goal with
           | |- context [Ascii.eqb ?a ?b] =>
               destruct (Ascii.eqb_spec a b); try congruence
           end;
    reflexivity.
Qed.

Lemma expandPunctuation_count (d : ascii) (s : string) :
  d = "."%char \/ d = "!"%char \/ d = "?"%char ->
  countChar d (expandPunctuation s)
  = ((if Ascii.eqb d "." then 3 else 1) * countChar d s)%nat.
Proof.
  intros Hd. induction s as [|c s IH]; simpl; [lia|].
  rewrite countChar_append, (expandChar_count c d Hd), IH.
  destruct (Ascii.eqb c d); destruct (Ascii.eqb d "."); lia.
Qed.

Lemma expandPunctuation_unpunctuated (s : string) :
  unpunctuated s -> expandPunctuation s = s.
Proof.
  unfold unpunctuated.
  induction s as [|c s IH]; simpl; [reflexivity|].
  intros (H1 & H2 & H3). unfold expandChar.
  destruct (Ascii.eqb c "."); [discriminate|].
  destruct (Ascii.eqb c "!"); [discriminate|].
  destruct (Ascii.eqb c "?"); [discriminate|].
  simpl in *. now rewrite IH.
Qed.

(** X1: without a sign type the enhanced text has the characters of the
    text and three more for every period, one more for every exclamation
    mark and question mark; with any sign type it is at least as long as
    the text. *)
Theorem enhanced_text_length (text : string) :
  String.length (enhanceTextForSpeech text None)
  = (String.length text + 3 * countChar "." text + countChar "!" text
     + countChar "?" text)%nat
  /\ forall signType,
      (String.length text
       <= String.length (enhanceTextForSpeech text signType))%nat.
Proof.
  split.
  - unfold enhanceTextForSpeech, toneWrap. simpl.
    rewrite addPauses_expandPunctuation. apply expandPunctuation_length.
  - intros signType. unfold enhanceTextForSpeech.
    rewrite addPauses_expandPunctuation.
    assert (Hframe : exists before after,
               toneWrap text signType = before ++ text ++ after).
    { unfold toneWrap. destruct (contextOf signType) as [ctx| |].
      - destruct (toneTemplate_frames (tone ctx)) as (b & a & H).
        exists b, a. apply H.
      - exists "", "". simpl. now rewrite string_app_nil_r.
      - exists "", "". simpl. now rewrite string_app_nil_r. }
    destruct Hframe as (before & after & ->).
    rewrite !expandPunctuation_app, !length_append.
    rewrite (expandPunctuation_length text). lia.
Qed.

(** X2: a text without period, exclamation mark and question mark, given
    without sign type, is spoken as it is; and enhancing an enhanced text
    once more changes nothing exactly for those texts: every other text
    grows again. *)
Theorem enhancing_twice_is_harmless_only_without_punctuation (text : string) :
  (unpunctuated text -> enhanceTextForSpeech text None = text)
  /\ (enhanceTextForSpeech (enhanceTextForSpeech text None) None
      = enhanceTextForSpeech text None
      <-> unpunctuated text).
Proof.
  assert (He : forall s, enhanceTextForSpeech s None = expandPunctuation s).
  { intros s. unfold enhanceTextForSpeech, toneWrap. simpl.
    apply addPauses_expandPunctuation. }
  split.
  - intros H. rewrite He. now apply expandPunctuation_unpunctuated.
  - rewrite !He. split.
    + intros H. apply (f_equal String.length) in H.
      rewrite (expandPunctuation_length (expandPunctuation text)) in H.
      rewrite !expandPunctuation_count in H by auto.
      simpl in H. unfold unpunctuated. lia.
    + intros H. now rewrite !(expandPunctuation_unpunctuated text H).
Qed.

Lemma enhancing_twice_is_harmless_only_without_punctuation_witness :
  enhanceTextForSpeech "thank you" None = "thank you"
  /\ enhanceTextForSpeech (enhanceTextForSpeech "thank you" None) None
     = enhanceTextForSpeech "thank you" None.
Proof.
  split.
  - apply (proj1 (enhancing_twice_is_harmless_only_without_punctuation
                    "thank you")).
    repeat split.
  - apply (proj2 (enhancing_twice_is_harmless_only_without_punctuation
                    "thank you")).
    repeat split.
Defined.

(** ** VoiceSelector: what [selectBestVoice] picks *)

Local Open Scope list_scope.

Lemma find_first {A} (f : A -> bool) (l1 l2 : list A) (a : A) :
  (forall x, In x l1 -> f x = false) -> f a = true ->
  find f (l1 ++ a :: l2) = Some a.
Proof.
  intros Hl1 Ha. induction l1 as [|x l1 IH]; simpl.
  - now rewrite Ha.
  - rewrite (Hl1 x (or_introl eq_refl)). apply IH.
    intros y Hy. apply Hl1. now right.
Qed.

Lemma find_nowhere {A} (f : A -> bool) (l : list A) :
  (forall x, In x l -> f x = false) -> find f l = None.
Proof.
  intros H. induction l as [|x l IH]; simpl; [reflexivity|].
  rewrite (H x (or_introl eq_refl)). apply IH.
  intros y Hy. apply H. now right.
Qed.

Lemma findPreferred_in (prefs : list string) (vs : list Voice) (v : Voice) :
  findPreferred prefs vs = Some v -> In v vs.
Proof.
  induction prefs as [|p prefs IH]; simpl; [discriminate|].
  destruct (find (matchesPreferred p) vs) as [v'|] eqn:E.
  - intros H. inversion H; subst. now apply find_some in E.
  - exact IH.
Qed.

Lemma findPreferred_skip (before after : list string) (p : string)
  (vs : list Voice) :
  (forall q v, In q before -> In v vs -> matchesPreferred q v = false) ->
  findPreferred (before ++ p :: after) vs
  = match find (matchesPreferred p) vs with
    | Some voice => Some voice
    | None => findPreferred after vs
    end.
Proof.
  intros H. induction before as [|q before IH]; simpl; [reflexivity|].
  rewrite find_nowhere.
  - apply IH. intros q' v Hq Hv. apply H; [now right | exact Hv].
  - intros v Hv. apply H; [now left | exact Hv].
Qed.

Lemma findPreferred_none (prefs : list string) (vs : list Voice) :
  (forall q v, In q prefs -> In v vs -> matchesPreferred q v = false) ->
  findPreferred prefs vs = None.
Proof.
  intros H. induction prefs as [|q prefs IH]; simpl; [reflexivity|].
  rewrite find_nowhere.
  - apply IH. intros q' v Hq Hv. apply H; [now right | exact Hv].
  - intros v Hv. apply H; [now left | exact Hv].
Qed.

Lemma bestVoice_unfold (vs : list Voice) :
  bestVoice vs
  = match findPreferred preferredVoices vs with
    | Some voice => Some voice
    | None =>
        match find isLocalEnglish vs with
        | Some englishVoice => Some englishVoice
        | None => nth_error vs 0
        end
    end.
Proof.
  unfold bestVoice, selectBestVoice. cbn [voices].
  destruct (findPreferred preferredVoices vs); [reflexivity|].
  destruct (find isLocalEnglish vs); reflexivity.
Qed.

Lemma bestVoice_nonempty (v : Voice) (vs : list Voice) :
  bestVoice (v :: vs) <> None.
Proof.
  rewrite bestVoice_unfold.
  destruct (findPreferred preferredVoices (v :: vs)); [discriminate|].
  destruct (find isLocalEnglish (v :: vs)); discriminate.
Qed.

(** X3: [selectBestVoice] always picks one of the client's voices, and
    leaves the client without a current voice exactly when it has no
    voice at all. *)
Theorem selectBestVoice_picks_a_listed_voice (c : Client) :
  (forall v, currentVoice (selectBestVoice c) = Some v -> In v (voices c))
  /\ (currentVoice (selectBestVoice c) = None <-> voices c = []).
Proof.
  rewrite selectBestVoice_current, bestVoice_unfold. split.
  - intros v.
    destruct (findPreferred preferredVoices (voices c)) as [p|] eqn:Ep.
    + intros H. inversion H; subst. eapply findPreferred_in; eassumption.
    + destruct (find isLocalEnglish (voices c)) as [e|] eqn:Ee.
      * intros H. inversion H; subst. now apply find_some in Ee.
      * intros H. eapply nth_error_In. exact H.
  - split.
    + destruct (voices c) as [|v vs]; [reflexivity|].
      intros H. exfalso. apply (bestVoice_nonempty v vs).
      now rewrite bestVoice_unfold.
    + intros ->. reflexivity.
Qed.

(** X4: the order of the preferred names beats the order of the voices:
    when no voice matches an earlier preferred name, the first voice that
    matches the preferred name at hand is picked, whatever voices come
    before it. *)
Theorem selectBestVoice_follows_the_preference_order
  (c : Client) (before after : list string) (preferred : string)
  (earlier later : list Voice) (voice : Voice) :
  preferredVoices = before ++ preferred :: after ->
  voices c = earlier ++ voice :: later ->
  (forall q v, In q before -> In v (voices c) ->
               matchesPreferred q v = false) ->
  (forall v, In v earlier -> matchesPreferred preferred v = false) ->
  matchesPreferred preferred voice = true ->
  currentVoice (selectBestVoice c) = Some voice.
Proof.
  intros Hprefs Hvs Hbefore Hearlier Hvoice.
  rewrite selectBestVoice_current, bestVoice_unfold, Hprefs.
  rewrite (findPreferred_skip before after preferred (voices c) Hbefore).
  rewrite Hvs, (find_first _ earlier later voice Hearlier Hvoice).
  reflexivity.
Qed.

Lemma selectBestVoice_follows_the_preference_order_witness :
  currentVoice (selectBestVoice (set_voices [plain; zira] newClient))
  = Some zira.
Proof.
  apply (selectBestVoice_follows_the_preference_order
           (set_voices [plain; zira] newClient)
           ["Google US English"%string]
           ["Microsoft David - English (United States)"%string;
            "Alex"%string; "Samantha"%string; "Karen"%string;
            "Moira"%string]
           "Microsoft Zira - English (United States)"
           [plain] [] zira).
  - reflexivity.
  - reflexivity.
  - intros q v [<-|[]] [<-|[<-|[]]]; reflexivity.
  - intros v [<-|[]]. reflexivity.
  - reflexivity.
Defined.

(** X5: when no voice matches a preferred name, the first voice that is
    both English and local is picked; when there is none either, the first
    voice of the list is picked, whatever its language, also before an
    English voice that is not local. *)
Theorem selectBestVoice_falls_back (c : Client) :
  nonePreferred (voices c) ->
  (forall earlier voice later,
      voices c = earlier ++ voice :: later ->
      (forall v, In v earlier -> isLocalEnglish v = false) ->
      isLocalEnglish voice = true ->
      currentVoice (selectBestVoice c) = Some voice)
  /\ ((forall v, In v (voices c) -> isLocalEnglish v = false) ->
      currentVoice (selectBestVoice c) = nth_error (voices c) 0).
Proof.
  intros Hnone.
  rewrite selectBestVoice_current, bestVoice_unfold.
  rewrite (findPreferred_none preferredVoices (voices c) Hnone).
  split.
  - intros earlier voice later Hvs Hearlier Hvoice.
    now rewrite Hvs, (find_first _ earlier later voice Hearlier Hvoice).
  - intros H. now rewrite (find_nowhere _ _ H).
Qed.

Lemma no_sample_voice_is_preferred (vs : list Voice) :
  incl vs [remoteEnglish; localFrench; localEnglish] -> nonePreferred vs.
Proof.
  intros Hincl preferred v Hp Hv. apply Hincl in Hv.
  simpl in Hp, Hv.
  repeat match goal with
         | H : _ \/ _ |- _ => destruct H as [<-|H]
         | H : False |- _ => destruct H
         end; reflexivity.
Qed.

Lemma selectBestVoice_falls_back_witness :
  currentVoice
    (selectBestVoice
       (set_voices [remoteEnglish; localFrench; localEnglish] newClient))
  = Some localEnglish
  /\ currentVoice
       (selectBestVoice (set_voices [localFrench; remoteEnglish] newClient))
     = Some localFrench.
Proof.
  split.
  - apply (proj1 (selectBestVoice_falls_back
                    (set_voices [remoteEnglish; localFrench; localEnglish]
                                newClient)
                    (no_sample_voice_is_preferred _ (incl_refl _)))
             [remoteEnglish; localFrench] localEnglish []).
    + reflexivity.
    + intros v [<-|[<-|[]]]; reflexivity.
    + reflexivity.
  - apply (proj2 (selectBestVoice_falls_back
                    (set_voices [localFrench; remoteEnglish] newClient)
                    (no_sample_voice_is_preferred
                       [localFrench; remoteEnglish]
                       ltac:(intros v [<-|[<-|[]]]; simpl; auto)))).
    intros v [<-|[<-|[]]]; reflexivity.
Defined.

Lemma prefix_toLowerCase (s2 : string) :
  forall s1, String.prefix s1 s2 = true ->
             String.prefix (JsString.toLowerCase s1)
                           (JsString.toLowerCase s2) = true.
Proof.
  induction s2 as [|b s2 IH]; intros [|a s1]; simpl; auto.
  destruct (ascii_dec a b) as [->|Hne]; [|intros H; discriminate H].
  intros H. destruct (ascii_dec _ _) as [_|Hn]; [now apply IH|].
  now contradiction Hn.
Qed.

Lemma includes_toLowerCase (s sub : string) :
  JsString.includes s sub = true ->
  JsString.includes (JsString.toLowerCase s) (JsString.toLowerCase sub)
  = true.
Proof.
  induction s as [|c s IH]; cbn [JsString.includes JsString.toLowerCase].
  - destruct (String.prefix sub "") eqn:E; [|intros H; discriminate H].
    intros _.
    pose proof (prefix_toLowerCase "" sub E) as H.
    cbn [JsString.toLowerCase] in H. now rewrite H.
  - destruct (String.prefix sub (String c s)) eqn:E.
    + intros _.
      pose proof (prefix_toLowerCase (String c s) sub E) as H.
      cbn [JsString.toLowerCase] in H. now rewrite H.
    + intros H.
      destruct (String.prefix (JsString.toLowerCase sub) _);
        [reflexivity | now apply IH].
Qed.

(** X6: the test for a preferred name does not depend on the case of
    letters: the case-sensitive half of the test adds nothing, a voice
    matches exactly when its name in lower case contains the preferred
    name in lower case. *)
Theorem preferred_names_match_whatever_the_case
  (preferred : string) (v : Voice) :
  matchesPreferred preferred v
  = JsString.includes (JsString.toLowerCase (name v))
                      (JsString.toLowerCase preferred).
Proof.
  unfold matchesPreferred.
  destruct (JsString.includes (name v) preferred) eqn:E;
    [|reflexivity].
  simpl. symmetry. now apply includes_toLowerCase.
Qed.

(** ** Settings, the utterance built next, and the list of voices *)

(** X7: [updateSettings] merges: an empty argument changes nothing, the
    same argument twice is as good as once, two arguments in a row amount
    to their merge with the later one winning, and nothing but the
    settings changes. *)
Theorem updateSettings_merges (c : Client) (p q : SettingsPatch) :
  updateSettings emptyPatch c = c
  /\ updateSettings p (updateSettings p c) = updateSettings p c
  /\ updateSettings q (updateSettings p c) = updateSettings (mergePatch p q) c
  /\ set_voiceSettings (voiceSettings c) (updateSettings p c) = c.
Proof.
  destruct c as [vs cv ini qu sp [r pi vo pa]].
  destruct p as [[pr|] [pp|] [pv|] [pb|]];
    destruct q as [[qr|] [qp|] [qv|] [qb|]];
    repeat split.
Qed.




Lemma getVoices_copy (c : Client) : getVoices c = voices c.
Proof.
  unfold getVoices. induction (voices c) as [|v vs IH]; simpl;
    [reflexivity|]. rewrite IH. now destruct v.
Qed.

(** X9: [getVoices] lists the client's voices, in order and unchanged, and
    every name it lists is one [setVoice] accepts: the call returns true
    and [getStatus] then reports that name as the current voice. *)
Theorem listed_voices_can_be_selected (c : Client) :
  getVoices c = voices c
  /\ forall v, In v (getVoices c) ->
               fst (setVoice (name v) c) = true
               /\ st_currentVoice (getStatus (snd (setVoice (name v) c)))
                  = Some (name v).
Proof.
  split; [apply getVoices_copy|].
  intros v Hin. rewrite getVoices_copy in Hin. unfold setVoice.
  destruct (find (fun v0 => (name v0 =? name v)%string) (voices c))
    as [voice|] eqn:E.
  - apply find_some in E. destruct E as [_ Heq].
    apply String.eqb_eq in Heq. simpl. now rewrite Heq.
  - pose proof (find_none _ _ E v Hin) as Hf. simpl in Hf.
    now rewrite String.eqb_refl in Hf.
Qed.

Lemma listed_voices_can_be_selected_witness :
  fst (setVoice "Plain" (client ready)) = true
  /\ st_currentVoice (getStatus (snd (setVoice "Plain" (client ready))))
     = Some "Plain"%string.
Proof.
  apply (proj2 (listed_voices_can_be_selected (client ready)) plain).
  vm_compute. auto.
Defined.

(** ** The control panel and the page *)

(** X10: a slider of the control panel writes back the whole snapshot of
    the settings the panel holds, with the one setting replaced: the
    client's settings become that, whatever they were, so a change made to
    the client since the snapshot was taken is undone; with a snapshot
    that is up to date only the one setting changes. *)
Theorem slider_writes_back_its_snapshot
  (status : Status) (setting : SettingKey) (value : Q) (w : World) :
  voiceSettings (client (handleSettingChange status setting value w))
  = withSetting setting value (st_settings status)
  /\ (forall patch,
         voiceSettings
           (client (handleSettingChange (getStatus (client w)) setting value
                      (call (CUpdateSettings patch) w)))
         = withSetting setting value (voiceSettings (client w)))
  /\ set_voiceSettings (voiceSettings (client w))
       (client (handleSettingChange status setting value w))
     = client w
  /\ engine (handleSettingChange status setting value w) = engine w.
Proof.
  destruct w as [[vs cv ini qu sp st] e r].
  split; [destruct setting; reflexivity|].
  split; [intros patch; destruct setting; reflexivity|].
  split; reflexivity.
Qed.




Lemma firstn_under (A : Type) (m : nat) (d : A) (l : list A) :
  (m <= 10)%nat -> firstn m (d :: firstn 9 l) = firstn m (d :: l).
Proof.
  intros Hm. destruct m as [|m]; [reflexivity|].
  rewrite !firstn_cons. f_equal. rewrite firstn_firstn. f_equal. lia.
Qed.

Lemma pushRecent_fold (A : Type) (ds : list A) :
  forall l, ds <> [] ->
            fold_left (fun l d => pushRecent d l) ds l
            = firstn 10 (rev ds ++ l).
Proof.
  induction ds as [|d ds IH]; intros l Hne; [now contradiction Hne|].
  cbn [fold_left]. destruct ds as [|d' ds].
  - reflexivity.
  - rewrite IH by discriminate. unfold pushRecent.
    change (rev (d :: d' :: ds)) with (rev (d' :: ds) ++ [d]).
    rewrite <- app_assoc. change ([d] ++ l) with (d :: l).
    generalize (rev (d' :: ds)). intros a.
    rewrite !(firstn_app 10 a). f_equal. apply firstn_under. lia.
Qed.

(** X12: the page's list of recent detections always holds the latest ten
    detections at most, the newest first: whatever detections arrive, the
    list is the last ten of them in reverse order of arrival. *)
Theorem recent_detections_are_the_latest_ten (A : Type) (ds : list A) :
  fold_left (fun l d => pushRecent d l) ds [] = firstn 10 (rev ds)
  /\ (length (fold_left (fun l d => pushRecent d l) ds []) <= 10)%nat.
Proof.
  assert (H : fold_left (fun l d => pushRecent d l) ds []
              = firstn 10 (rev ds)).
  { destruct ds as [|d ds]; [reflexivity|].
    rewrite pushRecent_fold by discriminate. now rewrite app_nil_r. }
  split; [exact H|]. rewrite H. apply firstn_le_length.
Qed.

(** ** Initialization, once done *)

Lemma loadVoices_initialized (p : nat) (w : World) :
  isInitialized (client w) = true ->
  isInitialized (client (loadVoices p w)) = true.
Proof. intros H. unfold_ops. cbn. destruct (catalog (engine w)); cbn; auto. Qed.

Lemma speakBody_initialized (k : SpeakCall) (w : World) :
  isInitialized (client (speakBody k w)) = isInitialized (client w).
Proof. frame. Qed.

Lemma call_initialized (c : ApiCall) (w : World) :
  isInitialized (client w) = true ->
  isInitialized (client (call c w)) = true.
Proof.
  intros H. destruct c as [|t s p| | | |voiceName|settings]; simpl;
    try exact H.
  - unfold initialize. cbn [snd]. apply loadVoices_initialized.
    destruct (onvoiceschanged (engine w)); exact H.
  - unfold speak. rewrite H. now rewrite speakBody_initialized.
  - rewrite <- H. unfold call. frame.
Qed.

Lemma calls_initialized (cs : list ApiCall) :
  forall w, isInitialized (client w) = true ->
            isInitialized (client (fold_left (fun w c => call c w) cs w))
            = true.
Proof.
  induction cs as [|c cs IH]; intros w Hi; simpl; [exact Hi|].
  apply IH. now apply call_initialized.
Qed.

Lemma drain_initialized (w : World) :
  isInitialized (client (drain w)) = isInitialized (client w).
Proof.
  unfold drain.
  change (isInitialized (client w))
    with (isInitialized (client (onRuntime (set_microtasks []) w))).
  generalize (onRuntime (set_microtasks []) w).
  induction (microtasks (runtime w)) as [|k ks IH]; intros w0; simpl.
  - reflexivity.
  - rewrite IH. apply speakBody_initialized.
Qed.

(** X13: once the client is initialized it stays initialized, whatever
    happens: no call, timer or engine event, not even the loss of all the
    engine's voices, takes that back. *)
Theorem initialization_is_never_undone (es : list Event) (w w' : World) :
  isInitialized (client w) = true ->
  run es w = Some w' ->
  isInitialized (client w') = true.
Proof.
  revert w. induction es as [|e es IH]; intros w Hi Hrun; simpl in Hrun.
  - inversion Hrun; subst. exact Hi.
  - destruct (step e w) as [w1|] eqn:E; [|discriminate].
    apply (IH w1); [|exact Hrun]. clear IH Hrun.
    destruct e; simpl in E.
    + inversion E. rewrite drain_initialized.
      now apply calls_initialized.
    + destruct (nth_error _ _) as [t|]; [|discriminate].
      destruct (_ <=? _)%Z; [|discriminate].
      inversion E. rewrite drain_initialized.
      destruct (task t); simpl.
      * now apply loadVoices_initialized.
      * rewrite <- Hi. frame.
    + destruct (_ <=? _)%Z; inversion E; subst. exact Hi.
    + inversion E; subst. exact Hi.
    + destruct (onvoiceschanged _); inversion E; subst; try exact Hi.
      rewrite drain_initialized. now apply loadVoices_initialized.
    + destruct (find _ _); inversion E. rewrite drain_initialized. exact Hi.
    + destruct (finish id w) as [w2|] eqn:Hf; [|discriminate].
      inversion E. rewrite drain_initialized. cbn.
      now rewrite (finish_client _ _ _ Hf).
    + destruct (finish id w) as [w2|] eqn:Hf; [|discriminate].
      inversion E. rewrite drain_initialized.
      replace (isInitialized (client (onerror reason w2)))
        with (isInitialized (client w2)) by frame.
      now rewrite (finish_client _ _ _ Hf).
Qed.

Lemma initialization_is_never_undone_witness :
  exists w',
    run [CatalogLoaded []; VoicesChanged; Call [CStop; CInitialize]] ready
    = Some w'
    /\ isInitialized (client w') = true.
Proof.
  eexists. split; [vm_compute; reflexivity|].
  apply (initialization_is_never_undone
           [CatalogLoaded []; VoicesChanged; Call [CStop; CInitialize]]
           ready _ eq_refl).
  vm_compute. reflexivity.
Defined.

Lemma selectBestVoice_eq (c : Client) :
  selectBestVoice c = set_currentVoice (bestVoice (voices c)) c.
Proof.
  rewrite bestVoice_unfold. unfold selectBestVoice.
  destruct (findPreferred preferredVoices (voices c)); [reflexivity|].
  destruct (find isLocalEnglish (voices c)); reflexivity.
Qed.

Lemma loadVoices_loaded (p : nat) (w : World) (v : Voice) (vs : list Voice) :
  catalog (engine w) = v :: vs ->
  loadVoices p w
  = resolve p
      (mkWorld
         (set_isInitialized true
            (set_currentVoice (bestVoice (v :: vs))
               (set_voices (v :: vs) (client w))))
         (engine w) (runtime w)).
Proof.
  intros H. unfold loadVoices, onClient.
  cbn [client engine runtime voices set_voices]. rewrite H.
  rewrite selectBestVoice_eq. reflexivity.
Qed.

Lemma loadVoices_unloaded (p : nat) (w : World) :
  catalog (engine w) = [] ->
  loadVoices p w = setTimeout (TLoadVoices p) 100 (onClient (set_voices []) w).
Proof.
  intros H. unfold loadVoices, onClient.
  cbn [client engine runtime voices set_voices]. now rewrite H.
Qed.

Ltac use_dormant H :=
  unfold dormant in *;
  destruct H as (Hini & Hrs & Hmt & Hq & Hsp & Hhis & Hact & Hcan);
  cbn in *; subst.

Lemma loadVoices_sound (p : nat) (w : World) : sound w -> sound (loadVoices p w).
Proof.
  intros [Hs Hv]. destruct (catalog (engine w)) as [|v vs] eqn:Hc.
  - rewrite (loadVoices_unloaded p w Hc). split.
    + destruct Hs as [Hs|Hd]; [left; exact Hs | right; exact Hd].
    + exact Hv.
  - rewrite (loadVoices_loaded p w v vs Hc).
    pose proof (bestVoice_nonempty v vs) as Hb.
    split.
    + left. unfold started, resolve, onRuntime. cbn. auto.
    + exact Hv.
Qed.

Lemma initialize_sound (w : World) : sound w -> sound (snd (initialize w)).
Proof.
  intros H. unfold initialize. cbn [snd]. apply loadVoices_sound.
  cbn. destruct (onvoiceschanged (engine w)); exact H.
Qed.

Lemma processQueue_sound (w : World) : sound w -> sound (processQueue w).
Proof.
  intros [Hs Hv]. unfold processQueue.
  destruct (speechQueue (client w)) as [|item rest] eqn:Hq;
    [now split|].
  destruct (isSpeaking (client w)); [now split|].
  destruct Hs as [[Hi Hcv]|Hd].
  - split.
    + left. split; [exact Hi | exact Hcv].
    + intros u Hin. cbn in Hin. apply in_app_or in Hin.
      destruct Hin as [Hin|[<-|[]]]; [now apply Hv|].
      unfold createUtterance. cbn.
      destruct (contextOf (signType item)); exact Hcv.
  - destruct Hd as (_ & _ & _ & Hq0 & _). rewrite Hq0 in Hq. discriminate.
Qed.

Lemma speakBody_sound (k : SpeakCall) (w : World) :
  started w -> voiced w -> sound (speakBody k w).
Proof.
  intros Hs Hv. unfold speakBody.
  match goal with
  | |- sound (if isSpeaking (client ?x) then _ else _) =>
      assert (Hx : sound x)
  end.
  { split; [left|]; destruct (c_priority k =? "urgent")%string;
      first [exact Hs | exact Hv]. }
  match goal with
  | |- sound (if ?b then _ else _) => destruct b
  end; [exact Hx | now apply processQueue_sound].
Qed.

Lemma speakBody_started (k : SpeakCall) (w : World) :
  started w -> started (speakBody k w).
Proof.
  unfold started. intros [Hi Hcv].
  destruct (speakBody_voice k w) as [-> ->]. now split.
Qed.

Lemma call_sound (c : ApiCall) (w : World) : sound w -> sound (call c w).
Proof.
  intros H. destruct c as [|t s p| | | |voiceName|settings]; simpl.
  - now apply initialize_sound.
  - unfold speak. destruct (isInitialized (client w)) eqn:Hi.
    + destruct H as [[Hs|Hd] Hv].
      * now apply speakBody_sound.
      * destruct Hd as (Hd & _). rewrite Hd in Hi. discriminate.
    + pose proof (initialize_sound w H) as H1.
      destruct (initialize w) as [p0 w1]. cbn [snd] in H1.
      destruct H1 as [[Hs|Hd] Hv]; split; try exact Hv.
      * left. exact Hs.
      * right. destruct_world w1. use_dormant Hd.
        unfold await, onRuntime. cbn. repeat split.
  - destruct H as [[Hs|Hd] Hv]; split.
    + left. exact Hs.
    + intros u Hin. now apply Hv.
    + right. destruct_world w. use_dormant Hd. repeat split.
    + intros u Hin. now apply Hv.
  - exact H.
  - exact H.
  - destruct H as [[[Hi Hcv]|Hd] Hv]; split; try exact Hv.
    + left. split; [rewrite <- Hi; frame|].
      cbn. unfold setVoice.
      destruct (find _ (voices (client w))); [discriminate | exact Hcv].
    + right. destruct_world w. use_dormant Hd. unfold setVoice. cbn.
      destruct (find (fun v => (name v =? voiceName)%string) vs);
        cbn; repeat split.
  - exact H.
Qed.

Lemma calls_sound (cs : list ApiCall) :
  forall w, sound w -> sound (fold_left (fun w c => call c w) cs w).
Proof.
  induction cs as [|c cs IH]; intros w H; simpl; [exact H|].
  apply IH. now apply call_sound.
Qed.

Lemma drain_sound (w : World) : sound w -> sound (drain w).
Proof.
  intros [[Hs|Hd] Hv].
  - unfold drain.
    assert (H0 : started (onRuntime (set_microtasks []) w)
                 /\ voiced (onRuntime (set_microtasks []) w)) by now split.
    revert H0. generalize (onRuntime (set_microtasks []) w).
    induction (microtasks (runtime w)) as [|k ks IH]; intros w0 [H0 H1];
      simpl.
    + split; [now left | exact H1].
    + apply IH. split; [now apply speakBody_started|].
      now apply (speakBody_sound k w0 H0 H1).
  - rewrite drain_idle; [split; [now right | exact Hv]|]. apply Hd.
Qed.

Lemma finish_sound (id : nat) (w w1 : World) :
  finish id w = Some w1 -> sound w -> started w /\ sound w1.
Proof.
  unfold finish. intros Hf [[Hs|Hd] Hv].
  - split; [exact Hs|].
    destruct (existsb _ (active _));
      [inversion Hf; split; [now left | exact Hv]|].
    destruct (existsb _ (cancelled _));
      [inversion Hf; split; [now left | exact Hv] | discriminate].
  - destruct Hd as (_ & _ & _ & _ & _ & _ & Hact & Hcan).
    rewrite Hact, Hcan in Hf. discriminate.
Qed.

Lemma step_sound (e : Event) (w w' : World) :
  sound w -> step e w = Some w' -> sound w'.
Proof.
  intros H Hstep. destruct e; simpl in Hstep.
  - inversion Hstep. apply drain_sound. now apply calls_sound.
  - destruct (nth_error _ _) as [t|]; [|discriminate].
    destruct (_ <=? _)%Z; [|discriminate].
    inversion Hstep. apply drain_sound.
    match goal with
    | |- sound (runTimer _ ?x) => assert (Hx : sound x) by exact H
    end.
    destruct (task t); simpl;
      [now apply loadVoices_sound | now apply processQueue_sound].
  - destruct (_ <=? _)%Z; inversion Hstep; subst. exact H.
  - inversion Hstep; subst. exact H.
  - destruct (onvoiceschanged _); inversion Hstep; subst; try exact H.
    apply drain_sound. now apply loadVoices_sound.
  - destruct (find _ _); inversion Hstep. apply drain_sound. exact H.
  - destruct (finish id w) as [w1|] eqn:Hf; [|discriminate].
    destruct (finish_sound _ _ _ Hf H) as [_ [[Hs|Hd] Hv]];
      inversion Hstep; apply drain_sound.
    + split; [left; exact Hs | exact Hv].
    + split; [right|exact Hv].
      destruct_world w1. use_dormant Hd. repeat split.
  - destruct (finish id w) as [w1|] eqn:Hf; [|discriminate].
    destruct (finish_sound _ _ _ Hf H) as [_ H1].
    inversion Hstep. apply drain_sound.
    unfold onerror. apply processQueue_sound.
    destruct H1 as [[Hs|Hd] Hv]; split; try exact Hv.
    + left. exact Hs.
    + right. destruct_world w1. use_dormant Hd. repeat split.
Qed.

Lemma boot_sound (slot : VoicesChangedSlot) (vs : list Voice) :
  sound (boot slot vs).
Proof.
  unfold boot. apply drain_sound. apply initialize_sound.
  split; [right; repeat split | intros u []].
Qed.

(** X14: in every state the client can reach, an initialized client has a
    current voice, so that every utterance ever handed to the engine
    carries a voice; and a client that is not initialized has queued
    nothing, handed nothing to the engine and does not claim to speak. *)
Theorem requests_wait_for_a_voice (w : World) :
  reachable w ->
  (isInitialized (client w) = true -> currentVoice (client w) <> None)
  /\ (forall u, In u (history (engine w)) -> u_voice u <> None)
  /\ (isInitialized (client w) = false ->
      speechQueue (client w) = [] /\ isSpeaking (client w) = false
      /\ history (engine w) = [] /\ active (engine w) = []).
Proof.
  intros (slot & vs & es & Hrun).
  assert (H : sound w).
  { revert Hrun. generalize (boot_sound slot vs). generalize (boot slot vs).
    induction es as [|e es IH]; intros w0 H0 Hrun; simpl in Hrun.
    - inversion Hrun; now subst.
    - destruct (step e w0) as [w1|] eqn:E; [|discriminate].
      apply (IH w1); [|exact Hrun]. eapply step_sound; eassumption. }
  destruct H as [[[Hi Hcv]|Hd] Hv].
  - split; [intros _; exact Hcv|]. split; [exact Hv|].
    intros Hn. rewrite Hi in Hn. discriminate.
  - destruct Hd as (Hi & _ & _ & Hq & Hsp & Hhis & Hact & _).
    split; [intros Hn; rewrite Hi in Hn; discriminate|].
    split; [exact Hv|]. intros _. auto.
Qed.

Lemma requests_wait_for_a_voice_witness :
  exists w,
    run startupRace early = Some w
    /\ played w = ["B"; "A"]%string
    /\ forall u, In u (history (engine w)) -> u_voice u <> None.
Proof.
  eexists. split; [vm_compute; reflexivity|]. split; [reflexivity|].
  match goal with
  | |- forall u, In u (history (engine ?w)) -> _ =>
      apply (proj1 (proj2 (requests_wait_for_a_voice w
               (ex_intro _ SlotNull
                  (ex_intro _ [] (ex_intro _ startupRace eq_refl))))))
  end.
Defined.

(** ** Polling for voices *)

Lemma dropNth_length {A} (l : list A) :
  forall k t, nth_error l k = Some t -> S (length (dropNth k l)) = length l.
Proof.
  induction l as [|a l IH]; intros [|k] t H; simpl in *;
    try discriminate; [reflexivity|].
  f_equal. now apply (IH k t).
Qed.

Lemma dropNth_forallb {A} (f : A -> bool) (l : list A) :
  forall k, forallb f l = true -> forallb f (dropNth k l) = true.
Proof.
  induction l as [|a l IH]; intros [|k] H; simpl in *; auto;
    apply andb_true_iff in H; destruct H as [Ha Hl]; auto.
  rewrite Ha. simpl. now apply IH.
Qed.

Lemma nth_error_forallb {A} (f : A -> bool) (l : list A) :
  forall k t, forallb f l = true -> nth_error l k = Some t -> f t = true.
Proof.
  induction l as [|a l IH]; intros [|k] t H Hn; simpl in *;
    try discriminate; apply andb_true_iff in H; destruct H as [Ha Hl].
  - inversion Hn; now subst.
  - now apply (IH k t).
Qed.

Lemma loadVoices_polls (slot : VoicesChangedSlot) (p m : nat) (w : World) :
  catalog (engine w) = [] -> pollsPending slot m w ->
  pollsPending slot (S m) (loadVoices p w).
Proof.
  intros Hc (Hlen & Hall & Hslot). rewrite (loadVoices_unloaded p w Hc).
  unfold pollsPending, setTimeout, onRuntime, onClient. cbn.
  rewrite length_app, forallb_app, Hlen, Hall. cbn.
  split; [lia|]. split; [reflexivity|].
  destruct slot; exact Hslot.
Qed.

Lemma initialize_polls (slot : VoicesChangedSlot) (m : nat) (w : World) :
  catalog (engine w) = [] -> pollsPending slot m w ->
  pollsPending slot (S m) (snd (initialize w)).
Proof.
  intros Hc (Hlen & Hall & Hslot). unfold initialize. cbn [snd].
  apply loadVoices_polls.
  - cbn. destruct (onvoiceschanged (engine w)); exact Hc.
  - unfold pollsPending. cbn.
    destruct slot; cbn in Hslot.
    + rewrite Hslot. cbn. auto.
    + destruct Hslot as (p & Hp). rewrite Hp. cbn.
      repeat split; auto. eexists. reflexivity.
    + destruct Hslot as (p' & Hp). rewrite Hp. cbn.
      repeat split; auto. eexists. reflexivity.
Qed.

Lemma call_polls (slot : VoicesChangedSlot) (c : ApiCall) (n m : nat)
  (w : World) :
  parked n w -> pollsPending slot m w ->
  pollsPending slot (m + armsByCall c) (call c w).
Proof.
  intros Hp Hm.
  assert (Hc : catalog (engine w) = []) by apply Hp.
  assert (Hi : isInitialized (client w) = false) by apply Hp.
  destruct c as [|t s p| | | |voiceName|settings]; simpl;
    rewrite ?Nat.add_0_r, ?Nat.add_1_r; try exact Hm.
  - now apply initialize_polls.
  - unfold speak. rewrite Hi.
    pose proof (initialize_polls slot m w Hc Hm) as H1.
    destruct (initialize w) as [p0 w1]. cbn [snd] in H1.
    unfold await, onRuntime.
    destruct (existsb _ _); exact H1.
Qed.

Lemma calls_polls (slot : VoicesChangedSlot) (cs : list ApiCall) :
  forall n m w,
    parked n w -> pollsPending slot m w ->
    pollsPending slot (m + list_sum (map armsByCall cs))
                 (fold_left (fun w c => call c w) cs w).
Proof.
  induction cs as [|c cs IH]; intros n m w Hp Hm; simpl.
  - now rewrite Nat.add_0_r.
  - rewrite Nat.add_assoc.
    apply (IH (n + length (spokenByCall c))%nat).
    + now apply call_parked.
    + now apply (call_polls slot c n).
Qed.

Lemma step_polls (slot : VoicesChangedSlot) (e : Event) (n m : nat)
  (w w' : World) :
  parked n w -> pollsPending slot m w -> keepsCatalog e = true ->
  step e w = Some w' ->
  pollsPending slot (m + armsBy slot e) w'.
Proof.
  intros Hp Hm Hk Hstep.
  pose proof (step_parked e n w w' Hp Hk Hstep) as Hp'.
  assert (Hmt : microtasks (runtime w') = []) by apply Hp'.
  assert (Hc : catalog (engine w) = []) by apply Hp.
  destruct e; simpl in *; rewrite ?Nat.add_0_r; try discriminate.
  - pose proof (calls_parked cs n w Hp) as H1.
    rewrite (parked_drain _ _ H1) in Hstep. inversion Hstep; subst.
    now apply (calls_polls slot cs n).
  - destruct (nth_error (timers (runtime w)) k) as [t|] eqn:En;
      [|discriminate].
    destruct (_ <=? _)%Z; [|discriminate].
    destruct Hm as (Hlen & Hall & Hslot).
    pose proof (nth_error_forallb _ _ _ _ Hall En) as Ht.
    pose proof (dropNth_length _ _ _ En) as Hd.
    unfold isPoll in Ht. destruct (task t) as [p|]; [|discriminate].
    simpl in Hstep.
    match type of Hstep with
    | Some (drain (loadVoices _ ?x)) = _ =>
        assert (Hx : pollsPending slot (pred m) x);
        [|assert (Hpx : parked n x)]
    end.
    { unfold pollsPending. cbn. rewrite <- Hlen, <- Hd. cbn.
      split; [reflexivity|]. split; [now apply dropNth_forallb|].
      destruct slot; exact Hslot. }
    { exact Hp. }
    pose proof (loadVoices_parked p n _ Hpx) as H1.
    rewrite (parked_drain _ _ H1) in Hstep. inversion Hstep; subst.
    replace (length (timers (runtime w)))
      with (S (pred (length (timers (runtime w)))))
      by (rewrite <- Hd; reflexivity).
    apply loadVoices_polls; [exact Hc | exact Hx].
  - destruct (_ <=? _)%Z; inversion Hstep; subst.
    destruct Hm as (Hlen & Hall & Hslot).
    repeat split; try assumption.
  - destruct Hm as (Hlen & Hall & Hslot).
    destruct slot; cbn in Hslot.
    + rewrite Hslot in Hstep. inversion Hstep; subst.
      rewrite Nat.add_0_r. repeat split; assumption.
    + destruct Hslot as (p & Hs). rewrite Hs in Hstep.
      pose proof (loadVoices_parked p n _ Hp) as H1.
      rewrite (parked_drain _ _ H1) in Hstep. inversion Hstep; subst.
      rewrite Nat.add_1_r. apply loadVoices_polls; [exact Hc|].
      repeat split; try assumption. eexists; exact Hs.
    + destruct Hslot as (p' & Hs). rewrite Hs in Hstep.
      pose proof (loadVoices_parked p' n _ Hp) as H1.
      rewrite (parked_drain _ _ H1) in Hstep. inversion Hstep; subst.
      rewrite Nat.add_1_r. apply loadVoices_polls; [exact Hc|].
      repeat split; try assumption. eexists; exact Hs.
  - assert (Hact : active (engine w) = []) by apply Hp.
    rewrite Hact in Hstep. discriminate.
  - unfold finish in Hstep.
    assert (Hact : active (engine w) = []) by apply Hp.
    assert (Hcan : cancelled (engine w) = []) by apply Hp.
    rewrite Hact, Hcan in Hstep. discriminate.
  - unfold finish in Hstep.
    assert (Hact : active (engine w) = []) by apply Hp.
    assert (Hcan : cancelled (engine w) = []) by apply Hp.
    rewrite Hact, Hcan in Hstep. discriminate.
Qed.

Lemma boot_polls (slot : VoicesChangedSlot) :
  pollsPending slot 1 (boot slot []).
Proof.
  unfold pollsPending, slotKept, listening.
  destruct slot; cbn; repeat split; eexists; reflexivity.
Qed.

(** X15: while the engine offers no voice, the polls never end and never
    merge: the constructor and every [initialize()] and [speak] call keep
    one 100 ms poll going each, and every voices-changed event that finds
    the list still empty adds one more; no other timer is pending. *)
Theorem polls_pile_up_while_there_is_no_voice
  (slot : VoicesChangedSlot) (es : list Event) (w : World) :
  forallb keepsCatalog es = true ->
  run es (boot slot []) = Some w ->
  length (timers (runtime w)) = (1 + list_sum (map (armsBy slot) es))%nat
  /\ forallb isPoll (timers (runtime w)) = true.
Proof.
  intros Hk Hrun.
  assert (H : pollsPending slot (1 + list_sum (map (armsBy slot) es)) w).
  { revert Hk Hrun.
    generalize (boot_polls slot) (boot_parked slot).
    generalize (boot slot []) 0%nat 1%nat.
    induction es as [|e es IH]; intros w0 n m Hm Hp Hk Hrun;
      simpl in Hk, Hrun.
    - inversion Hrun; subst. simpl. now rewrite Nat.add_0_r.
    - apply andb_true_iff in Hk. destruct Hk as [He Hes].
      destruct (step e w0) as [w1|] eqn:E; [|discriminate].
      simpl. rewrite Nat.add_assoc.
      apply (IH w1 (n + length (spokenBy e))%nat); try assumption.
      + eapply step_polls; eassumption.
      + eapply step_parked; eassumption. }
  destruct H as (Hlen & Hall & _). now split.
Qed.

Lemma polls_pile_up_while_there_is_no_voice_witness :
  exists w,
    run [Call [CInitialize]; Call [CSpeak "A" None "normal"]; Elapse 100;
         TimerFires 0; VoicesChanged] early = Some w
    /\ length (timers (runtime w)) = 4%nat
    /\ forallb isPoll (timers (runtime w)) = true.
Proof.
  eexists. split; [vm_compute; reflexivity|].
  apply (polls_pile_up_while_there_is_no_voice SlotNull
           [Call [CInitialize]; Call [CSpeak "A" None "normal"]; Elapse 100;
            TimerFires 0; VoicesChanged]);
    vm_compute; reflexivity.
Defined.

(** ** The handlers of the utterance in flight *)

Lemma finish_current (w : World) (u : Utterance) :
  active (engine w) = [u] ->
  finish (u_id u) w = Some (onEngine (set_active []) w).
Proof.
  intros H. unfold finish, without, hasId. rewrite H. cbn.
  rewrite Nat.eqb_refl. cbn. unfold onEngine. rewrite H. cbn.
  rewrite Nat.eqb_refl. reflexivity.
Qed.

(** X16: when the utterance in flight ends, the client stops speaking,
    keeps its queue and only arms the pause timer, due [pauseBetween]
    milliseconds later; when it fails, no timer is armed, the failed
    request is not put back, and the head of the queue, if there is one,
    is handed to the engine in the same step. *)
Theorem end_waits_and_error_moves_on (w : World) (u : Utterance) :
  active (engine w) = [u] ->
  microtasks (runtime w) = [] ->
  (exists w',
      step (UtteranceEnd (u_id u)) w = Some w'
      /\ isSpeaking (client w') = false
      /\ active (engine w') = []
      /\ speechQueue (client w') = speechQueue (client w)
      /\ history (engine w') = history (engine w)
      /\ timers (runtime w')
         = timers (runtime w)
           ++ [mkTimer (now (runtime w)
                        + pauseBetween (voiceSettings (client w)))
                       TProcessQueue])
  /\ (forall reason, exists w',
         step (UtteranceError (u_id u) reason) w = Some w'
         /\ timers (runtime w') = timers (runtime w)
         /\ match speechQueue (client w) with
            | [] =>
                isSpeaking (client w') = false
                /\ speechQueue (client w') = []
                /\ active (engine w') = []
                /\ history (engine w') = history (engine w)
            | speechItem :: rest =>
                isSpeaking (client w') = true
                /\ speechQueue (client w') = rest
                /\ exists u', u_label u' = text speechItem
                              /\ active (engine w') = [u']
                              /\ history (engine w')
                                 = history (engine w) ++ [u']
            end).
Proof.
  intros Hact Hm.
  pose proof (finish_current w u Hact) as Hf.
  split.
  - eexists. split.
    + simpl. rewrite Hf. rewrite drain_idle by exact Hm. reflexivity.
    + repeat split.
  - intros reason. eexists. split.
    + simpl. rewrite Hf.
      rewrite drain_idle by (rewrite <- Hm; frame). reflexivity.
    + unfold_ops. cbn.
      destruct (speechQueue (client w)) as [|item rest] eqn:Hq; cbn.
      * repeat split; try exact Hq.
      * split; [reflexivity|]. split; [reflexivity|]. split; [reflexivity|].
        eexists. split; [|split; reflexivity].
        destruct (contextOf (signType item)); reflexivity.
Qed.

Lemma end_waits_and_error_moves_on_witness :
  exists w w',
    run [Call [CSpeak "A" None "normal"; CSpeak "B" None "normal"]] ready
    = Some w
    /\ step (UtteranceError 0 "synthesis-failed") w = Some w'
    /\ inFlight w' = ["B"]%string
    /\ timers (runtime w') = [].
Proof.
  eexists.
  match goal with
  | |- exists w', run ?es ?w0 = Some ?w /\ _ =>
      let r := eval vm_compute in (run es w0) in
      match r with
      | Some ?w1 =>
          match eval vm_compute in (active (engine w1)) with
          | [?u] =>
              destruct (proj2 (end_waits_and_error_moves_on w1 u
                                 eq_refl eq_refl) "synthesis-failed"%string)
                as (w' & Hstep & Htm & H)
          end
      end
  end.
  exists w'. split; [vm_compute; reflexivity|]. split; [exact Hstep|].
  cbn in H. destruct H as (_ & _ & u' & Hl & Ha & _).
  split; [unfold inFlight; rewrite Ha; cbn; now rewrite Hl | exact Htm].
Defined.

(** X17: the pause between two utterances is not kept when a request comes
    in meanwhile: a [speak] call that finds the client silent with
    requests still queued hands the head of the queue to the engine at
    once, appends its own request and leaves the pause timer pending. *)
Theorem speak_in_the_pause_starts_the_next_at_once
  (w : World) (t : string) (s : option string) (p : string)
  (item : SpeechItem) (rest : list SpeechItem) :
  isInitialized (client w) = true ->
  microtasks (runtime w) = [] ->
  isSpeaking (client w) = false ->
  speechQueue (client w) = item :: rest ->
  (p =? "urgent")%string = false ->
  exists w' u,
    step (Call [CSpeak t s p]) w = Some w'
    /\ u_label u = text item
    /\ active (engine w') = active (engine w) ++ [u]
    /\ history (engine w') = history (engine w) ++ [u]
    /\ queued w' = map text rest ++ [t]
    /\ isSpeaking (client w') = true
    /\ timers (runtime w') = timers (runtime w).
Proof.
  intros Hi Hm Hsp Hq Hp.
  destruct_world w. cbn in *. subst.
  unfold speak, speakBody, drain. cbn. rewrite Hp. cbn.
  unfold_ops. cbn.
  destruct (contextOf (signType item));
    match goal with
    | |- context [set_active (?a ++ [?u]) _] =>
        eexists; exists u; split; [reflexivity|]; cbn;
        unfold queued; cbn; rewrite map_app; repeat split
    end.
Qed.

Lemma speak_in_the_pause_starts_the_next_at_once_witness :
  exists w w',
    run [Call [CSpeak "A" None "normal"; CSpeak "B" None "normal"];
         UtteranceEnd 0] ready = Some w
    /\ step (Call [CSpeak "C" None "normal"]) w = Some w'
    /\ inFlight w' = ["B"]%string
    /\ queued w' = ["C"]%string
    /\ length (timers (runtime w')) = 1%nat.
Proof.
  eexists.
  match goal with
  | |- exists w', run ?es ?w0 = Some ?w /\ _ =>
      let r := eval vm_compute in (run es w0) in
      match r with
      | Some ?w1 =>
          destruct (speak_in_the_pause_starts_the_next_at_once
                      w1 "C" None "normal" (mkItem "B" None "normal" 0) []
                      eq_refl eq_refl eq_refl eq_refl eq_refl)
            as (w' & u & Hstep & Hl & Ha & _ & Hq & _ & Htm)
      end
  end.
  exists w'. split; [vm_compute; reflexivity|]. split; [exact Hstep|].
  split; [unfold inFlight; rewrite Ha; cbn; now rewrite Hl|].
  split; [exact Hq | now rewrite Htm].
Defined.

(** X18: an urgent request on an initialized client is handed to the
    engine in the same step: when [speak] returns, the queue is empty, the
    one utterance in flight is the urgent one, everything that was in
    flight is cancelled, what was queued is gone without having been
    handed to the engine, and the pending timers are left as they were. *)
Theorem urgent_request_is_in_flight_at_once
  (w : World) (t : string) (s : option string) :
  isInitialized (client w) = true ->
  microtasks (runtime w) = [] ->
  exists w' u,
    step (Call [CSpeak t s "urgent"]) w = Some w'
    /\ u_label u = t
    /\ u_text u = enhanceTextForSpeech t s
    /\ speechQueue (client w') = []
    /\ isSpeaking (client w') = true
    /\ active (engine w') = [u]
    /\ cancelled (engine w') = cancelled (engine w) ++ active (engine w)
    /\ history (engine w') = history (engine w) ++ [u]
    /\ timers (runtime w') = timers (runtime w).
Proof.
  intros Hi Hm.
  destruct_world w. cbn in *. subst.
  unfold_ops. cbn.
  destruct (contextOf s);
    match goal with
    | |- context [set_active [?u] _] =>
        eexists; exists u; split; [reflexivity|]; cbn; repeat split
    end.
Qed.

Lemma urgent_request_is_in_flight_at_once_witness :
  exists w w',
    run [Call [CSpeak "A" None "normal"; CSpeak "B" None "normal"]] ready
    = Some w
    /\ step (Call [CSpeak "Help" (Some "help") "urgent"]) w = Some w'
    /\ inFlight w' = ["Help"]%string
    /\ queued w' = []
    /\ map u_label (cancelled (engine w')) = ["A"]%string
    /\ played w' = ["A"; "Help"]%string.
Proof.
  eexists.
  match goal with
  | |- exists w', run ?es ?w0 = Some ?w /\ _ =>
      let r := eval vm_compute in (run es w0) in
      match r with
      | Some ?w1 =>
          destruct (urgent_request_is_in_flight_at_once
                      w1 "Help" (Some "help"%string) eq_refl eq_refl)
            as (w' & u & Hstep & Hl & _ & Hq & _ & Ha & Hc & Hh & _)
      end
  end.
  exists w'. split; [vm_compute; reflexivity|]. split; [exact Hstep|].
  unfold inFlight, queued, played. rewrite Ha, Hq, Hc, Hh.
  rewrite map_app. cbn. rewrite Hl. repeat split.
Defined.

(** ** Playing the queue out *)

Lemma dropNth_last {A} (l : list A) (a : A) :
  dropNth (length l) (l ++ [a]) = l.
Proof. induction l as [|x l IH]; simpl; [reflexivity | now rewrite IH]. Qed.

Lemma fire_pause_timer (w : World) (tm : list Timer) (T : Timer) :
  timers (runtime w) = tm ++ [T] ->
  task T = TProcessQueue ->
  (due T <= now (runtime w))%Z ->
  microtasks (runtime w) = [] ->
  step (TimerFires (length tm)) w
  = Some (processQueue (onRuntime (set_timers tm) w)).
Proof.
  intros Ht Hk Hd Hm. unfold step. rewrite Ht.
  rewrite nth_error_app2 by lia. rewrite Nat.sub_diag. cbn [nth_error].
  apply Z.leb_le in Hd. rewrite Hd, Hk. cbn [runTimer].
  replace (onRuntime
             (fun r => set_timers (dropNth (length tm) (timers r)) r) w)
    with (onRuntime (set_timers tm) w)
    by (unfold onRuntime; now rewrite Ht, dropNth_last).
  rewrite drain_idle; [reflexivity|]. rewrite <- Hm. frame.
Qed.

Lemma playNext_step (w : World) (u : Utterance) (item : SpeechItem)
  (rest : list SpeechItem) :
  active (engine w) = [u] ->
  microtasks (runtime w) = [] ->
  speechQueue (client w) = item :: rest ->
  exists w' u',
    playNext w = Some w'
    /\ active (engine w') = [u']
    /\ u_label u' = text item
    /\ history (engine w') = history (engine w) ++ [u']
    /\ speechQueue (client w') = rest
    /\ microtasks (runtime w') = []
    /\ isSpeaking (client w') = true
    /\ timers (runtime w') = timers (runtime w).
Proof.
  intros Hact Hm Hq. unfold playNext. rewrite Hact. cbn [run].
  assert (E1 : step (UtteranceEnd (u_id u)) w
               = Some (onend (onEngine (set_active []) w))).
  { simpl. rewrite (finish_current w u Hact).
    now rewrite drain_idle by exact Hm. }
  rewrite E1.
  set (w1 := onend (onEngine (set_active []) w)).
  set (dt := Z.max 0 (pauseBetween (voiceSettings (client w)))).
  assert (E2 : step (Elapse dt) w1
               = Some (onRuntime (fun r => set_now (now r + dt) r) w1)).
  { unfold step. destruct (Z.leb_spec 0 dt); [reflexivity|].
    subst dt. lia. }
  rewrite E2.
  set (w2 := onRuntime (fun r => set_now (now r + dt) r) w1).
  rewrite (fire_pause_timer w2 (timers (runtime w))
             (mkTimer (now (runtime w)
                       + pauseBetween (voiceSettings (client w)))
                      TProcessQueue)).
  - subst w2 w1. clearbody dt. destruct_world w. cbn in *. subst.
    unfold_ops. cbn.
    destruct (contextOf (signType item));
      match goal with
      | |- context [set_active [?u'] _] =>
          eexists; exists u'; split; [reflexivity|]; cbn; repeat split
      end.
  - reflexivity.
  - reflexivity.
  - subst w2 w1 dt. cbn. lia.
  - exact Hm.
Qed.

(** X19: once an utterance is in flight, the queue plays out in its order:
    each time the utterance in flight ends, the pause passes and its timer
    fires, the head of the queue is handed to the engine; after [n] such
    rounds the first [n] queued texts have reached the engine, in queue
    order, and the others are still queued. *)
Theorem queue_plays_out_in_order (n : nat) :
  forall (w : World) (u : Utterance),
    active (engine w) = [u] ->
    microtasks (runtime w) = [] ->
    (n <= length (speechQueue (client w)))%nat ->
    exists w',
      playOut n w = Some w'
      /\ played w' = played w ++ firstn n (queued w)
      /\ queued w' = skipn n (queued w)
      /\ length (active (engine w')) = 1%nat.
Proof.
  induction n as [|n IH]; intros w u Hact Hm Hn.
  - exists w. cbn. rewrite app_nil_r, Hact. repeat split.
  - destruct (speechQueue (client w)) as [|item rest] eqn:Hq;
      [simpl in Hn; lia|].
    destruct (playNext_step w u item rest Hact Hm Hq)
      as (w1 & u1 & Hplay & Hact1 & Hl1 & Hh1 & Hq1 & Hm1 & _).
    destruct (IH w1 u1 Hact1 Hm1) as (w' & Hout & Hp & Hqd & Hlen).
    { rewrite Hq1. simpl in Hn. lia. }
    exists w'. cbn [playOut]. rewrite Hplay.
    split; [exact Hout|].
    unfold played, queued in *. rewrite Hq, Hq1, Hh1 in *.
    rewrite Hp, Hqd, map_app. cbn. rewrite Hl1, <- app_assoc.
    repeat split. exact Hlen.
Qed.

Lemma queue_plays_out_in_order_witness :
  exists w w',
    run [Call [CSpeak "A" None "normal"; CSpeak "B" (Some "hello") "normal";
               CSpeak "C" None "normal"]] ready = Some w
    /\ playOut 2 w = Some w'
    /\ played w' = ["A"; "B"; "C"]%string
    /\ queued w' = [].
Proof.
  eexists.
  match goal with
  | |- exists w', run ?es ?w0 = Some ?w /\ _ =>
      let r := eval vm_compute in (run es w0) in
      match r with
      | Some ?w1 =>
          match eval vm_compute in (active (engine w1)) with
          | [?u] =>
              destruct (queue_plays_out_in_order 2 w1 u eq_refl eq_refl)
                as (w' & Hout & Hp & Hq & _); [cbn; lia|]
          end
      end
  end.
  exists w'. split; [vm_compute; reflexivity|]. split; [exact Hout|].
  split; [rewrite Hp | rewrite Hq]; reflexivity.
Defined.

(** ** What [stop] leaves pending *)

(** X20: [stop()] clears neither the timers nor the [speak] calls that
    wait for initialization: a request made before the voices were loaded
    survives a [stop()], and is handed to the engine when the voices
    arrive. *)
Theorem stop_does_not_withdraw_suspended_requests
  (w : World) (p : nat) (k : SpeakCall) (v : Voice) (more : list Voice) :
  awaiting (runtime w) = [(p, k)] ->
  existsb (Nat.eqb p) (resolved (runtime w)) = false ->
  microtasks (runtime w) = [] ->
  catalog (engine w) = v :: more ->
  onvoiceschanged (engine w) = SlotLoadVoices p ->
  timers (runtime (stop w)) = timers (runtime w)
  /\ awaiting (runtime (stop w)) = awaiting (runtime w)
  /\ exists w' u,
      step VoicesChanged (stop w) = Some w'
      /\ u_label u = c_text k
      /\ active (engine w') = [u]
      /\ isSpeaking (client w') = true.
Proof.
  intros Ha Hr Hm Hc Hs.
  split; [reflexivity|]. split; [reflexivity|].
  unfold step.
  change (onvoiceschanged (engine (stop w)))
    with (onvoiceschanged (engine w)).
  rewrite Hs, (loadVoices_loaded p (stop w) v more Hc).
  remember (bestVoice (v :: more)) as bv eqn:Hbv. clear Hbv.
  destruct_world w. cbn in Ha, Hr, Hm, Hc, Hs. subst.
  unfold stop, resolve, synthesis_cancel, onClient, onEngine, onRuntime.
  cbn. rewrite Hr. cbn. unfold awaits. cbn. rewrite Nat.eqb_refl. cbn.
  unfold drain. cbn. unfold_ops. cbn.
  destruct (c_priority k =? "urgent")%string; cbn;
    destruct (contextOf (c_signType k));
    match goal with
    | |- context [set_active [?u] _] =>
        eexists; exists u; split; [reflexivity|]; cbn; repeat split
    end.
Qed.

Lemma stop_does_not_withdraw_suspended_requests_witness :
  exists w w',
    run [Call [CSpeak "A" None "normal"]; CatalogLoaded [plain; zira]]
        early = Some w
    /\ step VoicesChanged (stop w) = Some w'
    /\ inFlight w' = ["A"]%string.
Proof.
  eexists.
  match goal with
  | |- exists w', run ?es ?w0 = Some ?w /\ _ =>
      let r := eval vm_compute in (run es w0) in
      match r with
      | Some ?w1 =>
          destruct (stop_does_not_withdraw_suspended_requests
                      w1 1%nat (mkSpeakCall "A" None "normal") plain [zira]
                      eq_refl eq_refl eq_refl eq_refl eq_refl)
            as (_ & _ & w' & u & Hstep & Hl & Hact & _)
      end
  end.
  exists w'. split; [vm_compute; reflexivity|]. split; [exact Hstep|].
  unfold inFlight. rewrite Hact. cbn. now rewrite Hl.
Defined.
